(** * gif_uploader.py: packet encoding and upload session

    A shallow embedding of [gif_uploader.py], the script that uploads a GIF
    animation to a 96x20 BLE LED matrix, and the properties of its packet
    format that the specification states.

    The script works on hexadecimal text throughout: the file is read as
    bytes, turned into a hex string with [bytes.hex()], cut into chunks of
    392 hex characters, wrapped into packets by string concatenation, and
    only turned back into bytes by [bytearray.fromhex] when a packet is
    written to the device.  The embedding keeps that shape: a Python [str]
    is a [list ascii], a byte string is a [list byte], a Python [int] that
    counts something is an [N], and an operation that can raise returns an
    [option] (pure code) or runs in the small exception monad [M] (the
    session). *)

From Stdlib Require Import Ascii String NArith ZArith Arith Bool Lia Permutation List.
From Stdlib.Strings Require Import Byte.
Import ListNotations.

Local Open Scope N_scope.

(* ================================================================== *)
(** * Python strings and the built-ins the script uses *)

Definition str := list ascii.

(** A string literal of the source. *)
Definition lit (s : string) : str := list_ascii_of_string s.

(** [s[i:j]] for [0 <= i]. *)
Definition slice {A : Type} (s : list A) (i j : nat) : list A :=
  firstn (j - i) (skipn i s).

(** [range(start, stop, step)] for a positive [step].  A negative [stop]
    (the script computes [len(s) - 2]) gives the empty range, as the
    truncated subtraction of [nat] does. *)
Definition range (start stop step : nat) : list nat :=
  map (fun k => (start + k * step)%nat)
      (seq 0 ((stop - start + (step - 1)) / step)%nat).

(** [s.ljust(width, fill)] *)
Definition ljust {A : Type} (s : list A) (width : nat) (fill : A) : list A :=
  s ++ repeat fill (width - length s).

(** [s.zfill(width)] on a string without sign. *)
Definition zfill (s : str) (width : nat) : str :=
  repeat "0"%char (width - length s) ++ s.

(** [s.startswith(p)] *)
Fixpoint startswith (s p : str) : bool :=
  match p, s with
  | [], _ => true
  | c :: p', d :: s' => Ascii.eqb c d && startswith s' p'
  | _ :: _, [] => false
  end.

(** One character of [s.upper()]. *)
Definition upper_char (c : ascii) : ascii :=
  let n := N_of_ascii c in
  if (97 <=? n) && (n <=? 122) then ascii_of_N (n - 32) else c.

Definition upper (s : str) : str := map upper_char s.

(** The value of a hexadecimal digit, in either case. *)
Definition hex_val (c : ascii) : option N :=
  let n := N_of_ascii c in
  if (48 <=? n) && (n <=? 57) then Some (n - 48)
  else if (97 <=? n) && (n <=? 102) then Some (n - 87)
  else if (65 <=? n) && (n <=? 70) then Some (n - 55)
  else None.

(** The lower-case digit of a value below 16. *)
Definition hex_char (d : N) : ascii :=
  if d <? 10 then ascii_of_N (48 + d) else ascii_of_N (87 + d).

Fixpoint int16_from (acc : N) (s : str) : option N :=
  match s with
  | [] => Some acc
  | c :: r =>
      match hex_val c with
      | Some d => int16_from (16 * acc + d) r
      | None => None
      end
  end.

(** [int(s, 16)] on the strings the script gives it: the slices of one or
    two characters of a hex string.  [None] is [ValueError]; it is returned
    for the empty string and for any character that is not a hex digit
    (signs, blanks and underscores, which [int] tolerates in places, do not
    occur in the output of [bytes.hex()] nor in the literals of the
    script). *)
Definition int16 (s : str) : option N :=
  match s with
  | [] => None
  | _ => int16_from 0 s
  end.

Fixpoint hex_digits_from (fuel : nat) (n : N) (acc : str) : str :=
  match fuel with
  | O => acc
  | S fuel' =>
      let acc' := hex_char (n mod 16) :: acc in
      if n / 16 =? 0 then acc' else hex_digits_from fuel' (n / 16) acc'
  end.

(** The digits of [hex(n)] after the [0x] prefix, which are also those of
    [f"{n:x}"]: lower case, no leading zero, ["0"] for zero.  A number has
    no more hex digits than bits, hence the fuel. *)
Definition hex_digits (n : N) : str :=
  hex_digits_from (S (N.to_nat (N.log2 n))) n [].

(** [hex(n)] *)
Definition hex (n : N) : str := lit "0x" ++ hex_digits n.

(** [f"{n:04x}"] *)
Definition format_04x (n : N) : str := zfill (hex_digits n) 4.

(** [f"{n:02X}"] *)
Definition format_02X (n : N) : str := zfill (upper (hex_digits n)) 2.

(** [sum(...)] of a list of integers. *)
Definition sum (l : list N) : N := fold_right N.add 0 l.

(** A generator expression whose body can raise: the first failure aborts
    the whole expression. *)
Fixpoint traverse {A B : Type} (f : A -> option B) (l : list A)
  : option (list B) :=
  match l with
  | [] => Some []
  | a :: r =>
      match f a with
      | Some b => option_map (cons b) (traverse f r)
      | None => None
      end
  end.

(** ** Bytes *)

Definition byte_val (b : byte) : N := Byte.to_N b.

Definition byte_hex (b : byte) : str :=
  [hex_char (byte_val b / 16); hex_char (byte_val b mod 16)].

(** [bytes.hex()] *)
Definition bytes_hex (bs : list byte) : str := flat_map byte_hex bs.

(** [bytearray.fromhex(s)] on a string without blanks: two hex digits per
    byte; [None] is [ValueError] (a character that is no hex digit, or an
    odd number of digits). *)
Fixpoint fromhex (s : str) : option (list byte) :=
  match s with
  | [] => Some []
  | [_] => None
  | a :: b :: r =>
      match hex_val a, hex_val b with
      | Some x, Some y =>
          match Byte.of_N (16 * x + y) with
          | Some c => option_map (cons c) (fromhex r)
          | None => None
          end
      | _, _ => None
      end
  end.

(** [s.encode("ascii")] *)
Definition encode_ascii (s : string) : list byte := list_byte_of_string s.

(* ================================================================== *)
(** * The checksum engine *)

(** The integers [int(hex_string[i:i+2], 16) for i in range(0, stop, 2)]
    that both checksum functions sum. *)
Definition pair_values (hex_string : str) (stop : nat) : option (list N) :=
  traverse (fun i => int16 (slice hex_string i (i + 2))) (range 0 stop 2).

(** [checksum_mod256]:
    [hex(sum(...) % 256).upper()[2:].zfill(2)] *)
Definition checksum_mod256 (hex_string : str) : option str :=
  match pair_values hex_string (length hex_string) with
  | Some vs => Some (zfill (skipn 2 (upper (hex (sum vs mod 256)))) 2)
  | None => None
  end.

(** [calculate_last_byte]: the pairs are taken for
    [i in range(0, len(hex_string) - 2, 2)], so the last two characters of
    the input stay out of the sum. *)
Definition calculate_last_byte (hex_string : str) : option str :=
  match pair_values hex_string (length hex_string - 2) with
  | Some data_bytes =>
      let total_sum := sum data_bytes in
      let last_byte := total_sum / 256 in
      Some (format_02X last_byte)
  | None => None
  end.

(* ================================================================== *)
(** * The packet encoder *)

(** [int(len(payload) / 2) + 41]: the float quotient is exact for every
    length a list can have here, and [int] truncates it. *)
Definition length_field (payload : str) : N :=
  N.of_nat (length payload / 2) + 41.

Definition header_start : str := lit "aa55ffff".
Definition header_constant : str :=
  lit "c1020901010c01000d01000e0100140301090a11040001000a1207".
Definition header_tail : str := lit "c4000013".
Definition header_last : str := lit "81c4".

Definition generate_header (payload : str) (index animation_length : N) : str :=
  let header := header_start in
  let header := header ++ skipn 2 (hex (length_field payload)) in
  let header := header ++ format_04x index ++ lit "00" in
  let header := header ++ header_constant in
  let header := header ++ format_02X animation_length in
  let header := header ++ format_04x index ++ lit "00" in
  let header := header ++ header_tail in
  let header := header ++ header_last in
  header.

Definition generate_packet (payload : str) (index animation_length : N)
  : option str :=
  let header := generate_header payload index animation_length in
  let full_value := header ++ payload in
  match checksum_mod256 full_value with
  | None => None
  | Some checksum =>
      let full_value := full_value ++ checksum in
      match calculate_last_byte full_value with
      | None => None
      | Some last_byte => Some (full_value ++ last_byte)
      end
  end.

(* ================================================================== *)
(** * The chunker *)

(** The list comprehension of [file_to_hex_chunks]:
    [[s[i:i + chunk_size].ljust(chunk_size, fill)
      for i in range(0, len(s), chunk_size)]].
    It is written once for any element type; the script uses it on hex
    characters. *)
Definition padded_slices {A : Type} (s : list A) (chunk_size : nat) (fill : A)
  : list (list A) :=
  map (fun i => ljust (slice s i (i + chunk_size)) chunk_size fill)
      (range 0 (length s) chunk_size).

Definition hex_chunks (hex_string : str) (chunk_size : nat) : list str :=
  padded_slices hex_string chunk_size "0"%char.

(** Why the script stops with [sys.exit(1)]. *)
Inductive exception := ValueError | BleakError | TimeoutError.

Inductive reason :=
| UnableToOpen
| NotAGif
| TooLarge
| IndicationsFailed
| NotificationsFailed
| UploadError (e : exception)
| NotConnected.

(** The "naive GIF file validation" of [file_to_hex_chunks]:
    [hex_string.startswith("GIF87a".encode("ascii").hex())
     or hex_string.startswith("GIF89a".encode("ascii").hex())] *)
Definition gif_signature (hex_string : str) : bool :=
  startswith hex_string (bytes_hex (encode_ascii "GIF87a"))
  || startswith hex_string (bytes_hex (encode_ascii "GIF89a")).

(** [file_to_hex_chunks]; the argument is the content of the file, [None]
    when it cannot be opened. *)
Definition file_to_hex_chunks (file : option (list byte)) : reason + list str :=
  let chunk_size := 392%nat in
  match file with
  | None => inl UnableToOpen
  | Some content =>
      let hex_string := bytes_hex content in
      if negb (gif_signature hex_string)
      then inl NotAGif
      else
        let chunks := hex_chunks hex_string chunk_size in
        if (255 <? length chunks)%nat then inl TooLarge else inr chunks
  end.

(* ================================================================== *)
(** * The upload session *)

(** What the session cannot decide by itself: the behaviour of the BLE
    stack and of the device.  Real time is abstracted: [notified i] says
    whether a notification sets the event within the 0.75 s that the
    script waits after writing packet [i]. *)
Record device := {
  is_connected : bool;
  indications_ok : bool;
  notifications_ok : bool;
  write_ok : nat -> bool;   (* by the number of frames written before *)
  notified : N -> bool      (* by packet index *)
}.

(** The frames written to the characteristic so far, oldest first. *)
Definition trace := list (list byte).

Inductive abort :=
| Raise (e : exception)
| SysExit (r : reason).

(** Computations of the session: they extend the trace and either return
    or abort, by an exception or by [sys.exit(1)]. *)
Definition M (A : Type) : Type := trace -> trace * (A + abort).

Definition ret {A : Type} (a : A) : M A := fun tr => (tr, inl a).

Definition bind {A B : Type} (m : M A) (k : A -> M B) : M B :=
  fun tr =>
    match m tr with
    | (tr', inl a) => k a tr'
    | (tr', inr e) => (tr', inr e)
    end.

Notation "x <- m ;; k" := (bind m (fun x => k))
  (at level 61, m at next level, right associativity).
Notation "m ;; k" := (bind m (fun _ => k))
  (at level 61, right associativity).

Definition raise {A : Type} (e : exception) : M A := fun tr => (tr, inr (Raise e)).

Definition sys_exit {A : Type} (r : reason) : M A := fun tr => (tr, inr (SysExit r)).

(** [try: m except Exception as e: handler e].  [SystemExit] is not an
    [Exception] and passes through. *)
Definition try_except {A : Type} (m : M A) (handler : exception -> M A) : M A :=
  fun tr =>
    match m tr with
    | (tr', inr (Raise e)) => handler e tr'
    | r => r
    end.

(** A pure step that raises [ValueError] when it fails. *)
Definition value_of {A : Type} (o : option A) : M A :=
  match o with
  | Some a => ret a
  | None => raise ValueError
  end.

(** [await client.write_gatt_char(HANDLE, data, response=False)] *)
Definition write_gatt_char (dev : device) (data : list byte) : M unit :=
  fun tr =>
    if write_ok dev (length tr) then (tr ++ [data], inl tt)
    else (tr, inr (Raise BleakError)).

(** [await asyncio.wait_for(notification_event.wait(), timeout=0.75)],
    the event having been cleared before packet [i] was written. *)
Definition wait_for_notification (dev : device) (i : N) : M unit :=
  if notified dev i then ret tt else raise TimeoutError.

Definition reset_frame_1 : str := lit "aa55ffff0a000900c102080200ffdc04".
Definition reset_frame_2 : str := lit "aa55ffff0a000900c10208020000dd03".
Definition finalize_frame : str := lit "aa55ffff0b000f00c10236030100001404".

Definition reset_screen (dev : device) : M unit :=
  data <- value_of (fromhex reset_frame_1) ;;
  write_gatt_char dev data ;;
  data <- value_of (fromhex reset_frame_2) ;;
  write_gatt_char dev data.

(** The body of the [for hex_chunk in hex_chunks] loop with its
    [try ... except Exception]. *)
Definition send_packet (dev : device) (hex_chunk : str)
    (packet_index total : N) : M unit :=
  try_except
    (packet <- value_of (generate_packet hex_chunk packet_index total) ;;
     data <- value_of (fromhex packet) ;;
     write_gatt_char dev data ;;
     wait_for_notification dev packet_index)
    (fun e => sys_exit (UploadError e)).

Fixpoint send_packets (dev : device) (chunks : list str)
    (packet_index total : N) : M unit :=
  match chunks with
  | [] => ret tt
  | hex_chunk :: rest =>
      send_packet dev hex_chunk packet_index total ;;
      send_packets dev rest (packet_index + 1) total
  end.

Definition start_notify (ok : bool) (r : reason) : M unit :=
  if ok then ret tt else sys_exit r.

(** The part of [main] inside [async with BleakClient(...) as client]. *)
Definition session (dev : device) (chunks : list str) : M unit :=
  if is_connected dev then
    start_notify (indications_ok dev) IndicationsFailed ;;
    start_notify (notifications_ok dev) NotificationsFailed ;;
    reset_screen dev ;;
    send_packets dev chunks 0 (N.of_nat (length chunks)) ;;
    data <- value_of (fromhex finalize_frame) ;;
    write_gatt_char dev data ;;
    data <- value_of (fromhex finalize_frame) ;;
    write_gatt_char dev data
  else sys_exit NotConnected.

(** [main]: the chunks are made before the client is created. *)
Definition main (file : option (list byte)) (dev : device) : M unit :=
  match file_to_hex_chunks file with
  | inl r => sys_exit r
  | inr chunks => session dev chunks
  end.

Definition run {A : Type} (m : M A) : trace * (A + abort) := m [].

(** The byte of a value below 256. *)
Definition byte_of (n : N) : byte :=
  match Byte.of_N n with
  | Some b => b
  | None => x00
  end.

(** The sum of the bytes of a frame, each taken as an unsigned integer. *)
Definition total (bs : list byte) : N := sum (map byte_val bs).

(** The bytes that a literal of hex digits stands for. *)
Definition literal_bytes (s : str) : list byte :=
  match fromhex s with
  | Some bs => bs
  | None => []
  end.

(** The three bytes that [f"{index:04x}00"] stands for when the index fits
    in four hex digits: high byte, low byte, zero. *)
Definition index_bytes (index : N) : list byte :=
  [byte_of (index / 256); byte_of (index mod 256); x00].

(** The header as the device receives it, field by field, for a length
    field and a count of one byte each. *)
Definition header_bytes (len index animation_length : N) : list byte :=
  literal_bytes header_start
  ++ [byte_of len]
  ++ index_bytes index
  ++ literal_bytes header_constant
  ++ [byte_of animation_length]
  ++ index_bytes index
  ++ literal_bytes header_tail
  ++ literal_bytes header_last.

(** The two trailer bytes that follow header and chunk: the low and the
    high byte of the sum of the bytes before them. *)
Definition trailer (body : list byte) : list byte :=
  [byte_of (total body mod 256); byte_of (total body / 256)].

(** A character that [int(..., 16)] and [bytearray.fromhex] read as a
    digit. *)
Definition is_hex_digit (c : ascii) : bool :=
  match hex_val c with
  | Some _ => true
  | None => false
  end.

(** A text made of hex digits only. *)
Definition hex_text (s : str) : Prop := Forall (fun c => is_hex_digit c = true) s.

(** A chunk as the chunker delivers it: the hex text of 196 bytes. *)
Definition full_chunk (hex_chunk : str) : bool :=
  match fromhex hex_chunk with
  | Some bs => Nat.eqb (length bs) 196
  | None => false
  end.

(** The chunk of 196 zero bytes. *)
Definition zero_chunk : str := repeat "0"%char 392.

(** The frame that the loop writes for a chunk:
    [bytearray.fromhex(generate_packet(hex_chunk, packet_index, total))]. *)
Definition packet_frame (hex_chunk : str) (packet_index total : N)
  : option (list byte) :=
  match generate_packet hex_chunk packet_index total with
  | Some packet => fromhex packet
  | None => None
  end.

(** The frames of consecutive chunks, numbered from [packet_index]. *)
Fixpoint packet_frames (chunks : list str) (packet_index total : N)
  : list (list byte) :=
  match chunks with
  | [] => []
  | hex_chunk :: rest =>
      match packet_frame hex_chunk packet_index total with
      | Some frame => frame :: packet_frames rest (packet_index + 1) total
      | None => []
      end
  end.

(** The two frames of [reset_screen]. *)
Definition reset_frames : list (list byte) :=
  [literal_bytes reset_frame_1; literal_bytes reset_frame_2].

(** A device that connects, takes every write and never notifies. *)
Definition silent_device : device :=
  {| is_connected := true;
     indications_ok := true;
     notifications_ok := true;
     write_ok := fun _ => true;
     notified := fun _ => false |}.

(** A device that connects, takes every write and notifies after each
    packet. *)
Definition prompt_device : device :=
  {| is_connected := true;
     indications_ok := true;
     notifications_ok := true;
     write_ok := fun _ => true;
     notified := fun _ => true |}.

(** A device that connects and notifies after each packet, but whose
    write number [failing] (counted from 0 over the whole session)
    raises. *)
Definition device_failing_write (failing : nat) : device :=
  {| is_connected := true;
     indications_ok := true;
     notifications_ok := true;
     write_ok := fun m => negb (Nat.eqb m failing);
     notified := fun _ => true |}.

(** The finalize frame, which the session writes twice. *)
Definition finalize_frames : list (list byte) :=
  [literal_bytes finalize_frame; literal_bytes finalize_frame].

(** The trailer scheme, for a frame given as hex text: the byte before
    the last is [checksum_mod256] of the text before it, and the last byte
    is the sum of those same bytes divided by 256, which is also what
    [calculate_last_byte] makes of the text before the last byte. *)
Definition trailer_conforms (frame : str) : Prop :=
  exists body c t,
    fromhex frame = Some (body ++ [c; t])
    /\ checksum_mod256 (firstn (length frame - 4) frame)
       = Some (upper (byte_hex c))
    /\ byte_val c = total body mod 256
    /\ byte_val t = total body / 256
    /\ calculate_last_byte (firstn (length frame - 2) frame)
       = Some (upper (byte_hex t)).

(** ** The specification's wording, where it differs from the code *)

(** [trailing_byte] as the specification words it: the sum of the bytes
    without the last two of them, divided by 256, cut to one byte. *)
Definition trailing_byte_spec (bs : list byte) : N :=
  (total (firstn (length bs - 2) bs) / 256) mod 256.

(** The index field as the specification words it: two bytes, low byte
    first, then a zero byte. *)
Definition index_bytes_little_endian (index : N) : list byte :=
  [byte_of (index mod 256); byte_of (index / 256); x00].

(* ================================================================== *)
(** * Digits and bytes *)

Ltac Zify.zify_post_hook ::= Z.to_euclidean_division_equations.

Lemma byte_val_lt (b : byte) : byte_val b < 256.
Proof. pose proof (Byte.to_N_bounded b). unfold byte_val. lia. Qed.

Lemma byte_of_val (b : byte) : byte_of (byte_val b) = b.
Proof. unfold byte_of, byte_val. now rewrite Byte.of_to_N. Qed.

Lemma byte_val_of (n : N) : n < 256 -> byte_val (byte_of n) = n.
Proof.
  intros Hn. unfold byte_of, byte_val.
  destruct (Byte.of_N n) as [b|] eqn:E.
  - now apply Byte.to_of_N.
  - apply Byte.of_N_None_iff in E. lia.
Qed.

Lemma of_N_byte_of (n : N) : n < 256 -> Byte.of_N n = Some (byte_of n).
Proof.
  intros Hn. unfold byte_of.
  destruct (Byte.of_N n) eqn:E; [reflexivity|].
  apply Byte.of_N_None_iff in E. lia.
Qed.

Lemma fromhex_byte_hex (b : byte) (r : str) :
  fromhex (byte_hex b ++ r) = option_map (cons b) (fromhex r).
Proof. destruct b; reflexivity. Qed.

Lemma fromhex_upper_byte_hex (b : byte) (r : str) :
  fromhex (upper (byte_hex b) ++ r) = option_map (cons b) (fromhex r).
Proof. destruct b; reflexivity. Qed.

Lemma int16_byte_hex (b : byte) : int16 (byte_hex b) = Some (byte_val b).
Proof. destruct b; reflexivity. Qed.

Lemma fromhex_bytes_hex (bs : list byte) : fromhex (bytes_hex bs) = Some bs.
Proof.
  induction bs as [|b bs IH]; [reflexivity|].
  change (bytes_hex (b :: bs)) with (byte_hex b ++ bytes_hex bs).
  now rewrite fromhex_byte_hex, IH.
Qed.

(** ** The digits of small numbers *)

Lemma hex_digits_from_last (f : nat) (n : N) (acc : str) :
  n < 16 -> hex_digits_from (S f) n acc = hex_char n :: acc.
Proof.
  intros Hn. cbn [hex_digits_from].
  replace (n / 16) with 0 by lia. replace (n mod 16) with n by lia.
  reflexivity.
Qed.

Lemma hex_digits_from_more (f : nat) (n : N) (acc : str) :
  16 <= n ->
  hex_digits_from (S f) n acc
  = hex_digits_from f (n / 16) (hex_char (n mod 16) :: acc).
Proof.
  intros Hn. cbn [hex_digits_from].
  destruct (N.eqb_spec (n / 16) 0) as [E|E]; [lia | reflexivity].
Qed.

Lemma log2_lower (n b : N) : 2 ^ b <= n -> (N.to_nat b <= N.to_nat (N.log2 n))%nat.
Proof.
  intros H.
  assert (0 < n) by (pose proof (N.pow_nonzero 2 b); lia).
  apply N.log2_le_pow2 in H; lia.
Qed.

Lemma hex_digits_1 (n : N) : n < 16 -> hex_digits n = [hex_char n].
Proof. intros Hn. unfold hex_digits. now apply hex_digits_from_last. Qed.

Lemma hex_digits_2 (n : N) :
  16 <= n < 256 -> hex_digits n = [hex_char (n / 16); hex_char (n mod 16)].
Proof.
  intros Hn. unfold hex_digits.
  pose proof (log2_lower n 4 (proj1 Hn)) as Hl.
  destruct (N.to_nat (N.log2 n)) as [|f]; [simpl in Hl; lia|].
  rewrite hex_digits_from_more by lia.
  rewrite hex_digits_from_last by lia. reflexivity.
Qed.

Lemma hex_digits_3 (n : N) :
  256 <= n < 4096 ->
  hex_digits n
  = [hex_char (n / 16 / 16); hex_char (n / 16 mod 16); hex_char (n mod 16)].
Proof.
  intros Hn. unfold hex_digits.
  pose proof (log2_lower n 8 (proj1 Hn)) as Hl.
  destruct (N.to_nat (N.log2 n)) as [|[|f]]; try (simpl in Hl; lia).
  rewrite !hex_digits_from_more by lia.
  rewrite hex_digits_from_last by lia. reflexivity.
Qed.

Lemma hex_digits_4 (n : N) :
  4096 <= n < 65536 ->
  hex_digits n
  = [hex_char (n / 16 / 16 / 16); hex_char (n / 16 / 16 mod 16);
     hex_char (n / 16 mod 16); hex_char (n mod 16)].
Proof.
  intros Hn. unfold hex_digits.
  pose proof (log2_lower n 12 (proj1 Hn)) as Hl.
  destruct (N.to_nat (N.log2 n)) as [|[|[|f]]]; try (simpl in Hl; lia).
  rewrite !hex_digits_from_more by lia.
  rewrite hex_digits_from_last by lia. reflexivity.
Qed.

(** Two digits, with a leading zero when needed, are the hex of a byte. *)
Lemma zfill_2_byte (n : N) :
  n < 256 -> zfill (hex_digits n) 2 = byte_hex (byte_of n).
Proof.
  intros Hn. unfold byte_hex. rewrite byte_val_of by assumption.
  destruct (N.ltb_spec n 16).
  - rewrite hex_digits_1 by assumption. unfold zfill. simpl.
    replace (n / 16) with 0 by lia. replace (n mod 16) with n by lia.
    reflexivity.
  - rewrite hex_digits_2 by lia. reflexivity.
Qed.

Lemma format_02X_byte (n : N) :
  n < 256 -> format_02X n = upper (byte_hex (byte_of n)).
Proof.
  intros Hn. rewrite <- zfill_2_byte by assumption.
  unfold format_02X, zfill, upper. rewrite length_map, map_app.
  f_equal. now rewrite map_repeat.
Qed.

Lemma nibbles_high (n : N) :
  n / 256 / 16 = n / 16 / 16 / 16 /\ (n / 256) mod 16 = n / 16 / 16 mod 16.
Proof. rewrite !N.Div0.div_div. split; reflexivity. Qed.

Lemma nibble_2 (n : N) : (n mod 256) / 16 = n / 16 mod 16.
Proof. lia. Qed.

Lemma nibble_1 (n : N) : (n mod 256) mod 16 = n mod 16.
Proof. lia. Qed.

Lemma format_04x_word (n : N) :
  n < 65536 ->
  format_04x n = byte_hex (byte_of (n / 256)) ++ byte_hex (byte_of (n mod 256)).
Proof.
  intros Hn. unfold byte_hex. rewrite !byte_val_of by lia.
  unfold format_04x, zfill.
  destruct (nibbles_high n) as [D1 D2].
  rewrite D1, D2, nibble_2, nibble_1. clear D1 D2.
  destruct (N.ltb_spec n 16); [|destruct (N.ltb_spec n 256);
    [|destruct (N.ltb_spec n 4096)]].
  - rewrite hex_digits_1 by assumption. simpl.
    replace (n / 16) with 0 by lia. replace (n mod 16) with n by lia.
    reflexivity.
  - rewrite hex_digits_2 by lia. simpl.
    replace (n / 16 / 16) with 0 by lia.
    replace (n / 16 mod 16) with (n / 16) by lia. reflexivity.
  - rewrite hex_digits_3 by lia. simpl.
    replace (n / 16 / 16 / 16) with 0 by lia.
    replace (n / 16 / 16 mod 16) with (n / 16 / 16) by lia. reflexivity.
  - rewrite hex_digits_4 by lia. reflexivity.
Qed.

(** The text that [checksum_mod256] builds from its sum is the
    two-digit upper-case format. *)
Lemma checksum_text (v : N) :
  zfill (skipn 2 (upper (hex v))) 2 = format_02X v.
Proof. reflexivity. Qed.

Lemma length_field_text (v : N) :
  16 <= v < 256 -> skipn 2 (hex v) = byte_hex (byte_of v).
Proof.
  intros Hv. change (skipn 2 (hex v)) with (hex_digits v).
  rewrite <- zfill_2_byte by lia. rewrite hex_digits_2 by lia. reflexivity.
Qed.

(* ================================================================== *)
(** * Ranges, slices and the pairs of a hex string *)

Section Ranges.
Local Open Scope nat_scope.

Lemma range_empty (step : nat) : range 0 0 step = [].
Proof.
  unfold range. simpl.
  destruct step as [|step]; [reflexivity|].
  rewrite Nat.div_small by lia. reflexivity.
Qed.

Lemma range_count (stop step : nat) :
  length (range 0 stop step) = (stop + (step - 1)) / step.
Proof. unfold range. now rewrite length_map, length_seq, Nat.sub_0_r. Qed.

Lemma range_count_succ (stop step : nat) :
  0 < step -> 0 < stop ->
  (stop + (step - 1)) / step = S ((stop - step + (step - 1)) / step).
Proof.
  intros Hstep Hstop.
  destruct (Nat.le_gt_cases step stop) as [Hle|Hgt].
  - replace (stop + (step - 1)) with (stop - step + (step - 1) + 1 * step)
      by lia.
    rewrite Nat.div_add by lia. lia.
  - replace (stop - step) with 0 by lia.
    rewrite (Nat.div_small (0 + (step - 1))) by lia.
    symmetry. apply (Nat.div_unique _ _ _ (stop - 1)); lia.
Qed.

(** The first index of a non-empty range is 0 and the others are those of
    the range that stops [step] earlier, shifted by [step]. *)
Lemma range_cons (stop step : nat) :
  0 < step -> 0 < stop ->
  range 0 stop step = 0 :: map (fun i => step + i) (range 0 (stop - step) step).
Proof.
  intros Hstep Hstop. unfold range. rewrite !Nat.sub_0_r.
  rewrite range_count_succ by assumption.
  cbn [seq map]. f_equal.
  rewrite <- seq_shift, !map_map. apply map_ext. intros k. lia.
Qed.

Lemma slice_shift {A : Type} (s : list A) (n i w : nat) :
  slice s (n + i) (n + i + w) = slice (skipn n s) i (i + w).
Proof.
  unfold slice. rewrite skipn_skipn. f_equal; [lia | f_equal; lia].
Qed.

Lemma traverse_map {A B C : Type} (f : B -> option C) (g : A -> B) (l : list A) :
  traverse f (map g l) = traverse (fun a => f (g a)) l.
Proof.
  induction l as [|a l IH]; [reflexivity|].
  simpl. now rewrite IH.
Qed.

Lemma traverse_ext {A B : Type} (f g : A -> option B) (l : list A) :
  (forall a, f a = g a) -> traverse f l = traverse g l.
Proof.
  intros E. induction l as [|a l IH]; [reflexivity|].
  simpl. now rewrite E, IH.
Qed.

Lemma pair_values_cons (a b : ascii) (r : str) (n : nat) :
  pair_values (a :: b :: r) (S (S n))
  = match int16 [a; b] with
    | Some v => option_map (cons v) (pair_values r n)
    | None => None
    end.
Proof.
  unfold pair_values. rewrite range_cons by lia.
  cbn [traverse]. change (slice (a :: b :: r) 0 (0 + 2)) with [a; b].
  destruct (int16 [a; b]) as [v|]; [|reflexivity].
  f_equal. rewrite traverse_map.
  replace (S (S n) - 2) with n by lia.
  apply traverse_ext. intros i.
  now rewrite (slice_shift (a :: b :: r) 2 i 2).
Qed.

(** A string that [fromhex] accepts is made of pairs of digits. *)
Lemma fromhex_cons_inv (a b : ascii) (r : str) (bs : list byte) :
  fromhex (a :: b :: r) = Some bs ->
  exists c bs', bs = c :: bs' /\ fromhex r = Some bs'
                /\ int16 [a; b] = Some (byte_val c).
Proof.
  cbn [fromhex]. unfold int16, int16_from.
  destruct (hex_val a) as [x|]; [|discriminate].
  destruct (hex_val b) as [y|]; [|discriminate].
  change (16 * 0 + x)%N with x.
  destruct (Byte.of_N (16 * x + y)) as [c|] eqn:E; [|discriminate].
  destruct (fromhex r) as [bs'|]; [|discriminate].
  intros [= <-]. exists c, bs'. repeat split.
  f_equal. symmetry. now apply Byte.to_of_N.
Qed.

Lemma fromhex_length (s : str) :
  forall bs, fromhex s = Some bs -> length s = 2 * length bs.
Proof.
  induction s as [s IH] using (induction_ltof1 _ (@length _)).
  unfold ltof in IH. intros bs H.
  destruct s as [|a [|b r]].
  - injection H as <-. reflexivity.
  - discriminate.
  - apply fromhex_cons_inv in H as (c & bs' & -> & Hr & _).
    apply IH in Hr; simpl in *; lia.
Qed.

(** The integers that the checksum functions see are the bytes that
    [fromhex] makes of the same text. *)
Lemma pair_values_prefix (k : nat) :
  forall s bs, fromhex s = Some bs -> k <= length bs ->
  pair_values s (2 * k) = Some (map byte_val (firstn k bs)).
Proof.
  induction k as [|k IH]; intros s bs H Hk.
  - unfold pair_values. now rewrite range_empty.
  - destruct s as [|a [|b r]].
    + injection H as <-. simpl in Hk. lia.
    + discriminate.
    + apply fromhex_cons_inv in H as (c & bs' & -> & Hr & Hv).
      replace (2 * S k) with (S (S (2 * k))) by lia.
      rewrite pair_values_cons, Hv.
      rewrite (IH r bs' Hr) by (simpl in Hk; lia). reflexivity.
Qed.

End Ranges.

Lemma fromhex_app (s1 : str) :
  forall b1 s2, fromhex s1 = Some b1 ->
  fromhex (s1 ++ s2) = option_map (app b1) (fromhex s2).
Proof.
  induction s1 as [s1 IH] using (induction_ltof1 _ (@length _)).
  unfold ltof in IH. intros b1 s2 H.
  destruct s1 as [|a [|b r]].
  - injection H as <-. simpl. now destruct (fromhex s2).
  - discriminate.
  - cbn [fromhex app] in *.
    destruct (hex_val a); [|discriminate].
    destruct (hex_val b); [|discriminate].
    destruct (Byte.of_N _) as [c|]; [|discriminate].
    destruct (fromhex r) as [br|] eqn:Hr; [|discriminate].
    injection H as <-.
    rewrite (IH r) with (b1 := br) by (simpl; lia || assumption).
    now destruct (fromhex s2).
Qed.

Lemma checksum_mod256_bytes (s : str) (bs : list byte) :
  fromhex s = Some bs ->
  checksum_mod256 s = Some (format_02X (sum (map byte_val bs) mod 256)).
Proof.
  intros H. unfold checksum_mod256.
  rewrite (fromhex_length s bs H).
  rewrite (pair_values_prefix (length bs) s bs H) by lia.
  now rewrite firstn_all, checksum_text.
Qed.

Lemma calculate_last_byte_bytes (s : str) (bs : list byte) :
  fromhex s = Some bs ->
  calculate_last_byte s
  = Some (format_02X (sum (map byte_val (removelast bs)) / 256)).
Proof.
  intros H. unfold calculate_last_byte.
  rewrite (fromhex_length s bs H).
  replace (2 * length bs - 2)%nat with (2 * (length bs - 1))%nat by lia.
  rewrite (pair_values_prefix (length bs - 1) s bs H) by lia.
  rewrite removelast_firstn_len.
  now replace (pred (length bs)) with (length bs - 1)%nat by lia.
Qed.

(* ================================================================== *)
(** * The bytes of a packet *)

Lemma fromhex_literal (s : str) (bs : list byte) (r : str) :
  fromhex s = Some bs ->
  fromhex (s ++ r) = option_map (app (literal_bytes s)) (fromhex r).
Proof.
  intros H. unfold literal_bytes. rewrite H. now apply fromhex_app.
Qed.

Lemma some_inj {A : Type} (x y : A) : Some x = Some y -> x = y.
Proof. now intros [= ->]. Qed.

Lemma option_map_map {A B C : Type} (f : A -> B) (g : B -> C) (o : option A) :
  option_map g (option_map f o) = option_map (fun a => g (f a)) o.
Proof. now destruct o. Qed.

Lemma fromhex_index (index : N) (r : str) :
  index < 65536 ->
  fromhex ((format_04x index ++ lit "00") ++ r)
  = option_map (app (index_bytes index)) (fromhex r).
Proof.
  intros Hi. rewrite format_04x_word by assumption.
  rewrite <- !app_assoc, !fromhex_byte_hex.
  change (fromhex (lit "00" ++ r)) with (fromhex (byte_hex x00 ++ r)).
  rewrite fromhex_byte_hex, !option_map_map. reflexivity.
Qed.

(** The text of a header, followed by anything, reads back as the fields
    of [header_bytes]. *)
Lemma fromhex_generate_header (payload : str) (index n : N) (r : str) :
  length_field payload < 256 -> index < 65536 -> n < 256 ->
  fromhex (generate_header payload index n ++ r)
  = option_map (app (header_bytes (length_field payload) index n)) (fromhex r).
Proof.
  intros Hl Hi Hn. unfold generate_header, header_bytes.
  assert (16 <= length_field payload) by (unfold length_field; lia).
  rewrite length_field_text by lia.
  rewrite format_02X_byte by assumption.
  rewrite <- !app_assoc.
  rewrite (fromhex_literal header_start _ _ eq_refl).
  rewrite fromhex_byte_hex.
  rewrite (app_assoc (format_04x index)), fromhex_index by assumption.
  rewrite (fromhex_literal header_constant _ _ eq_refl).
  rewrite fromhex_upper_byte_hex.
  rewrite (app_assoc (format_04x index)), fromhex_index by assumption.
  rewrite (fromhex_literal header_tail _ _ eq_refl).
  rewrite (fromhex_literal header_last _ _ eq_refl).
  rewrite !option_map_map.
  destruct (fromhex r) as [br|]; [|reflexivity].
  cbn [option_map]. rewrite <- !app_assoc. reflexivity.
Qed.

Lemma length_header_bytes (len index n : N) :
  length (header_bytes len index n) = 45%nat.
Proof. reflexivity. Qed.

Lemma sum_app (l1 l2 : list N) : sum (l1 ++ l2) = sum l1 + sum l2.
Proof.
  induction l1 as [|a l1 IH]; [reflexivity|].
  cbn [app sum fold_right] in *. fold (sum (l1 ++ l2)). fold (sum l1). lia.
Qed.

Lemma total_app (b1 b2 : list byte) : total (b1 ++ b2) = total b1 + total b2.
Proof. unfold total. now rewrite map_app, sum_app. Qed.

Lemma total_bound (bs : list byte) : total bs <= 255 * N.of_nat (length bs).
Proof.
  induction bs as [|b bs IH]; [cbn; lia|].
  change (total (b :: bs)) with (byte_val b + total bs).
  pose proof (byte_val_lt b). cbn [length]. lia.
Qed.

Lemma length_field_bytes (payload : str) (chunk : list byte) :
  fromhex payload = Some chunk ->
  length_field payload = N.of_nat (length chunk) + 41.
Proof.
  intros H. unfold length_field. rewrite (fromhex_length _ _ H).
  replace (2 * length chunk)%nat with (length chunk * 2)%nat by lia.
  now rewrite Nat.div_mul by lia.
Qed.

(** What [generate_packet] returns, read as bytes: the header fields, the
    chunk, then the low and the high byte of the sum of header and chunk.
    The chunk has at most 196 bytes, the index two bytes and the count
    one. *)
Lemma generate_packet_bytes (payload : str) (chunk : list byte) (index n : N) :
  fromhex payload = Some chunk ->
  (length chunk <= 196)%nat -> index < 65536 -> n < 256 ->
  let body := header_bytes (N.of_nat (length chunk) + 41) index n ++ chunk in
  exists packet,
    generate_packet payload index n = Some packet
    /\ fromhex packet = Some (body ++ trailer body).
Proof.
  intros Hp Hlen Hi Hn body.
  pose proof (length_field_bytes _ _ Hp) as Hf.
  assert (Hbody : fromhex (generate_header payload index n ++ payload)
                  = Some body).
  { rewrite fromhex_generate_header by (rewrite ?Hf; lia).
    now rewrite Hp, Hf. }
  assert (Hsum : total body < 65536).
  { pose proof (total_bound body) as Hb. unfold body in Hb at 2.
    rewrite length_app, length_header_bytes in Hb. lia. }
  unfold generate_packet.
  rewrite (checksum_mod256_bytes _ _ Hbody). fold (total body).
  rewrite format_02X_byte by lia.
  set (c := byte_of (total body mod 256)).
  assert (Hc : fromhex ((generate_header payload index n ++ payload)
                        ++ upper (byte_hex c)) = Some (body ++ [c])).
  { rewrite (fromhex_app _ _ _ Hbody).
    rewrite <- (app_nil_r (upper (byte_hex c))), fromhex_upper_byte_hex.
    reflexivity. }
  rewrite (calculate_last_byte_bytes _ _ Hc), removelast_last.
  fold (total body). rewrite format_02X_byte by lia.
  eexists. split; [reflexivity|].
  rewrite (fromhex_app _ _ _ Hc).
  rewrite <- (app_nil_r (upper (byte_hex _))), fromhex_upper_byte_hex.
  cbn [fromhex option_map]. rewrite <- app_assoc. reflexivity.
Qed.

(* ================================================================== *)
(** * The chunker *)

Section Chunks.
Local Open Scope nat_scope.
Context {A : Type}.
Variable n : nat.
Variable fill : A.
Hypothesis n_pos : 0 < n.

Lemma length_ljust (s : list A) (w : nat) :
  length (ljust s w fill) = Nat.max (length s) w.
Proof. unfold ljust. rewrite length_app, repeat_length. lia. Qed.

Lemma padded_slices_nil : padded_slices (@nil A) n fill = [].
Proof. unfold padded_slices. now rewrite range_empty. Qed.

(** The first chunk is the padded head of the sequence and the others are
    the chunks of what follows it. *)
Lemma padded_slices_cons (s : list A) :
  s <> [] ->
  padded_slices s n fill
  = ljust (firstn n s) n fill :: padded_slices (skipn n s) n fill.
Proof.
  intros Hs. unfold padded_slices.
  assert (0 < length s) by (destruct s; [congruence | simpl; lia]).
  rewrite range_cons by assumption. cbn [map]. f_equal.
  - unfold slice. now rewrite Nat.add_0_l, Nat.sub_0_r.
  - rewrite map_map, length_skipn. apply map_ext. intros i.
    now rewrite slice_shift.
Qed.

Lemma padded_slices_count (s : list A) :
  length (padded_slices s n fill) = (length s + (n - 1)) / n.
Proof. unfold padded_slices. now rewrite length_map, range_count. Qed.

Lemma padded_slices_length (s : list A) :
  Forall (fun c => length c = n) (padded_slices s n fill).
Proof.
  unfold padded_slices. apply Forall_map, Forall_forall. intros i _.
  rewrite length_ljust. unfold slice. rewrite length_firstn. lia.
Qed.

Lemma padded_slices_concat (s : list A) :
  firstn (length s) (concat (padded_slices s n fill)) = s.
Proof.
  induction s as [s IH] using (induction_ltof1 _ (@length _)).
  unfold ltof in IH.
  destruct s as [|a s']; [reflexivity|].
  set (s := a :: s') in *.
  rewrite padded_slices_cons by discriminate. cbn [concat].
  rewrite firstn_app, length_ljust, length_firstn.
  destruct (Nat.le_gt_cases (length s) n) as [Hle|Hgt].
  - rewrite (firstn_all2 (n := n) s) by assumption.
    unfold ljust. rewrite firstn_app, firstn_all, Nat.sub_diag, firstn_O.
    replace (length s - Nat.max (Nat.min n (length s)) n) with 0 by lia.
    now rewrite firstn_O, !app_nil_r.
  - assert (Hl : length (firstn n s) = n) by (rewrite length_firstn; lia).
    unfold ljust at 1. rewrite Hl, Nat.sub_diag. cbn [repeat].
    rewrite app_nil_r, (firstn_all2 (firstn n s)) by lia.
    replace (length s - Nat.max (Nat.min n (length s)) n)
      with (length (skipn n s)) by (rewrite length_skipn; lia).
    rewrite IH by (rewrite length_skipn; lia).
    apply firstn_skipn.
Qed.

End Chunks.

Section HexChunks.
Local Open Scope nat_scope.

Lemma length_bytes_hex (bs : list byte) : length (bytes_hex bs) = 2 * length bs.
Proof.
  induction bs as [|b bs IH]; [reflexivity|].
  cbn [bytes_hex flat_map length app byte_hex]. fold (bytes_hex bs). lia.
Qed.

Lemma bytes_hex_app (b1 b2 : list byte) :
  bytes_hex (b1 ++ b2) = bytes_hex b1 ++ bytes_hex b2.
Proof. apply flat_map_app. Qed.

Lemma bytes_hex_zeros (k : nat) :
  bytes_hex (repeat x00 k) = repeat "0"%char (2 * k).
Proof.
  induction k as [|k IH]; [reflexivity|].
  replace (2 * S k) with (S (S (2 * k))) by lia.
  cbn [repeat]. rewrite <- IH. reflexivity.
Qed.

Lemma firstn_bytes_hex (k : nat) :
  forall bs, firstn (2 * k) (bytes_hex bs) = bytes_hex (firstn k bs).
Proof.
  induction k as [|k IH]; intros bs; [reflexivity|].
  destruct bs as [|b bs]; [reflexivity|].
  replace (2 * S k) with (S (S (2 * k))) by lia.
  cbn [bytes_hex flat_map byte_hex app firstn]. fold (bytes_hex bs).
  fold (bytes_hex (firstn k bs)). now rewrite IH.
Qed.

Lemma skipn_bytes_hex (k : nat) :
  forall bs, skipn (2 * k) (bytes_hex bs) = bytes_hex (skipn k bs).
Proof.
  induction k as [|k IH]; intros bs; [reflexivity|].
  destruct bs as [|b bs]; [reflexivity|].
  replace (2 * S k) with (S (S (2 * k))) by lia.
  cbn [bytes_hex flat_map byte_hex app skipn]. fold (bytes_hex bs).
  apply IH.
Qed.

Lemma ljust_bytes_hex (bs : list byte) (k : nat) :
  ljust (bytes_hex bs) (2 * k) "0"%char = bytes_hex (ljust bs k x00).
Proof.
  unfold ljust. rewrite bytes_hex_app, bytes_hex_zeros, length_bytes_hex.
  do 2 f_equal. lia.
Qed.

(** Cutting the hex text into chunks of [2 * k] characters padded with
    ["0"] is cutting the bytes into chunks of [k] bytes padded with zero
    bytes. *)
Lemma hex_chunks_bytes (k : nat) :
  0 < k ->
  forall bs,
  hex_chunks (bytes_hex bs) (2 * k) = map bytes_hex (padded_slices bs k x00).
Proof.
  intros Hk bs.
  induction bs as [bs IH] using (induction_ltof1 _ (@length _)).
  unfold ltof in IH. unfold hex_chunks in *.
  destruct bs as [|b bs'].
  - cbn [bytes_hex flat_map]. now rewrite !padded_slices_nil.
  - set (bs := b :: bs') in *.
    rewrite (padded_slices_cons k x00 Hk bs) by discriminate.
    rewrite padded_slices_cons by (lia || discriminate).
    cbn [map]. rewrite firstn_bytes_hex, skipn_bytes_hex, ljust_bytes_hex.
    f_equal. apply IH. rewrite length_skipn. subst bs. cbn [length]. lia.
Qed.

Lemma traverse_fromhex (cbs : list (list byte)) :
  traverse fromhex (map bytes_hex cbs) = Some cbs.
Proof.
  induction cbs as [|c cbs IH]; [reflexivity|].
  cbn [map traverse]. now rewrite fromhex_bytes_hex, IH.
Qed.

End HexChunks.

(* ================================================================== *)
(** * Encoding never fails on hex digits *)

Lemma hex_char_digit (d : N) : d < 16 -> is_hex_digit (hex_char d) = true.
Proof.
  intros Hd.
  destruct d as [|[[[[p|p|]|[p|p|]|]|[[p|p|]|[p|p|]|]|]|[[[p|p|]|[p|p|]|]|[[p|p|]|[p|p|]|]|]|]];
    try lia; reflexivity.
Qed.

Lemma upper_hex_char_digit (d : N) :
  d < 16 -> is_hex_digit (upper_char (hex_char d)) = true.
Proof.
  intros Hd.
  destruct d as [|[[[[p|p|]|[p|p|]|]|[[p|p|]|[p|p|]|]|]|[[[p|p|]|[p|p|]|]|[[p|p|]|[p|p|]|]|]|]];
    try lia; reflexivity.
Qed.

Lemma hex_digits_from_all (P : ascii -> Prop) :
  (forall d, d < 16 -> P (hex_char d)) ->
  forall f n acc, Forall P acc -> Forall P (hex_digits_from f n acc).
Proof.
  intros HP f. induction f as [|f IH]; intros n acc Hacc; [assumption|].
  cbn [hex_digits_from].
  assert (Forall P (hex_char (n mod 16) :: acc))
    by (constructor; [apply HP; lia | assumption]).
  destruct (n / 16 =? 0); [assumption | now apply IH].
Qed.

Lemma hex_digits_text (n : N) : hex_text (hex_digits n).
Proof. apply hex_digits_from_all; [apply hex_char_digit | constructor]. Qed.

Lemma upper_hex_digits_text (n : N) : hex_text (upper (hex_digits n)).
Proof.
  apply Forall_map.
  apply hex_digits_from_all; [apply upper_hex_char_digit | constructor].
Qed.

Lemma zeros_text (k : nat) : hex_text (repeat "0"%char k).
Proof.
  apply Forall_forall. intros c Hc. apply repeat_spec in Hc. now subst c.
Qed.

Lemma zfill_text (s : str) (w : nat) : hex_text s -> hex_text (zfill s w).
Proof.
  intros Hs. apply Forall_app. split; [apply zeros_text | assumption].
Qed.

Lemma lit_text (s : string) :
  forallb is_hex_digit (lit s) = true -> hex_text (lit s).
Proof.
  intros H. apply Forall_forall. now apply forallb_forall.
Qed.

Lemma generate_header_text (payload : str) (index n : N) :
  hex_text (generate_header payload index n).
Proof.
  unfold generate_header, hex_text.
  change (skipn 2 (hex (length_field payload)))
    with (hex_digits (length_field payload)).
  repeat (apply Forall_app; split);
    try (apply lit_text; reflexivity);
    try apply zeros_text;
    try apply hex_digits_text;
    try apply upper_hex_digits_text.
Qed.

Lemma int16_from_total (s : str) :
  hex_text s -> forall acc, exists v, int16_from acc s = Some v.
Proof.
  induction 1 as [|c s Hc Hs IH]; intros acc; [now exists acc|].
  cbn [int16_from]. unfold is_hex_digit in Hc.
  destruct (hex_val c) as [d|]; [apply IH | discriminate].
Qed.

Lemma int16_total (s : str) :
  hex_text s -> s <> [] -> exists v, int16 s = Some v.
Proof.
  intros Hs Hne. destruct s as [|c s]; [congruence|].
  now apply int16_from_total.
Qed.

(** On a text of hex digits the pairs up to any index within the text all
    have a value, also when the text has an odd number of digits. *)
Lemma pair_values_total (s : str) :
  hex_text s -> forall stop, (stop <= length s)%nat ->
  exists vs, pair_values s stop = Some vs.
Proof.
  induction s as [s IH] using (induction_ltof1 _ (@length _)).
  unfold ltof in IH. intros Hs stop Hstop.
  destruct stop as [|[|stop]].
  - exists []. unfold pair_values. now rewrite range_empty.
  - unfold pair_values. rewrite range_cons by lia.
    replace (1 - 2)%nat with 0%nat by lia. rewrite range_empty.
    cbn [map traverse].
    destruct (int16_total (slice s 0 (0 + 2))) as [v Hv].
    + unfold slice. cbn [skipn]. rewrite <- (firstn_skipn (0 + 2 - 0) s) in Hs.
      now apply Forall_app in Hs.
    + destruct s; [simpl in Hstop; lia | discriminate].
    + rewrite Hv. now eexists.
  - destruct s as [|a [|b r]]; try (simpl in Hstop; lia).
    rewrite pair_values_cons.
    inversion Hs as [|? ? Ha Hs']; subst. inversion Hs' as [|? ? Hb Hr]; subst.
    destruct (int16_total [a; b]) as [v Hv];
      [repeat constructor; assumption | discriminate |].
    rewrite Hv.
    destruct (IH r) with (stop := stop) as [vs Hvs];
      [simpl; lia | assumption | simpl in Hstop; lia |].
    rewrite Hvs. now eexists.
Qed.

Lemma format_02X_text (n : N) : hex_text (format_02X n).
Proof. apply zfill_text, upper_hex_digits_text. Qed.

Lemma generate_packet_total (payload : str) (index n : N) :
  hex_text payload -> exists packet, generate_packet payload index n = Some packet.
Proof.
  intros Hp. unfold generate_packet, checksum_mod256, calculate_last_byte.
  set (full := generate_header payload index n ++ payload).
  assert (Hfull : hex_text full)
    by (apply Forall_app; split; [apply generate_header_text | assumption]).
  destruct (pair_values_total full Hfull (length full)) as [vs ->]; [lia|].
  rewrite checksum_text.
  set (full2 := full ++ format_02X (sum vs mod 256)).
  assert (Hfull2 : hex_text full2)
    by (apply Forall_app; split; [assumption | apply format_02X_text]).
  destruct (pair_values_total full2 Hfull2 (length full2 - 2)) as [ws ->];
    [lia|].
  now eexists.
Qed.

(* ================================================================== *)
(** * The packet format *)

Lemma fromhex_header_alone (payload : str) (chunk : list byte) (index n : N) :
  fromhex payload = Some chunk ->
  (length chunk <= 196)%nat -> index < 65536 -> n < 256 ->
  fromhex (generate_header payload index n)
  = Some (header_bytes (N.of_nat (length chunk) + 41) index n).
Proof.
  intros Hp Hlen Hi Hn.
  pose proof (length_field_bytes _ _ Hp) as Hf.
  rewrite <- (app_nil_r (generate_header payload index n)).
  rewrite fromhex_generate_header by (rewrite ?Hf; lia).
  rewrite Hf. cbn [fromhex option_map]. now rewrite app_nil_r.
Qed.

(** C9: for every chunk of 196 bytes, every index up to 65535 and every
    count up to 255, [generate_packet] returns a packet of exactly 243
    bytes: a header of 45 bytes whose fifth byte, the length field, is 237
    (0xED), then the 196 bytes of the chunk, then a trailer of 2 bytes. *)
Theorem generate_packet_layout (payload : str) (chunk : list byte) (index n : N) :
  fromhex payload = Some chunk -> length chunk = 196%nat ->
  index <= 65535 -> n <= 255 ->
  exists packet header t,
    generate_packet payload index n = Some packet
    /\ fromhex (generate_header payload index n) = Some header
    /\ length header = 45%nat
    /\ nth_error header 4 = Some xed
    /\ length t = 2%nat
    /\ fromhex packet = Some (header ++ chunk ++ t)
    /\ length (header ++ chunk ++ t) = 243%nat.
Proof.
  intros Hp Hlen Hi Hn.
  destruct (generate_packet_bytes payload chunk index n) as (packet & Hg & Hb);
    try lia; try assumption.
  rewrite Hlen in Hb.
  exists packet, (header_bytes (N.of_nat 196 + 41) index n).
  eexists (trailer _).
  split; [exact Hg|].
  split; [rewrite <- Hlen; apply fromhex_header_alone; lia || assumption|].
  split; [reflexivity|]. split; [reflexivity|]. split; [reflexivity|].
  split; [rewrite Hb, <- app_assoc; reflexivity|].
  rewrite !length_app, Hlen. reflexivity.
Qed.

Lemma generate_packet_layout_witness :
  exists packet header t,
    generate_packet zero_chunk 0 1 = Some packet
    /\ fromhex (generate_header zero_chunk 0 1) = Some header
    /\ length header = 45%nat
    /\ nth_error header 4 = Some xed
    /\ length t = 2%nat
    /\ fromhex packet = Some (header ++ repeat x00 196 ++ t)
    /\ length (header ++ repeat x00 196 ++ t) = 243%nat.
Proof.
  apply (generate_packet_layout zero_chunk (repeat x00 196) 0 1);
    [reflexivity | reflexivity | lia | lia].
Defined.

(** C1, as the specification states it, fails: in the packet of the zero
    chunk with index 15 of 16 the last byte is 7, and the sum of all the
    bytes before it, the checksum byte included, divided by 256 is 8. *)
Lemma packet_trailer_counterexample :
  exists packet bytes,
    generate_packet zero_chunk 15 16 = Some packet
    /\ fromhex packet = Some bytes
    /\ byte_val (last bytes x00) = 7
    /\ total (removelast bytes) / 256 = 8
    /\ byte_val (last bytes x00) <> total (removelast bytes) / 256.
Proof.
  eexists. eexists.
  split; [vm_compute; reflexivity|].
  split; [vm_compute; reflexivity|].
  split; [vm_compute; reflexivity|].
  split; [vm_compute; reflexivity|].
  vm_compute. discriminate.
Qed.

(** C1, amended: for every chunk of at most 196 bytes, index up to 65535
    and count up to 255, the packet is header, chunk and two trailer
    bytes; the first trailer byte is the sum of the bytes of header and
    chunk modulo 256 and the last one is that same sum divided by 256: the
    checksum byte is not part of the sum. *)
Theorem packet_trailer (payload : str) (chunk : list byte) (index n : N) :
  fromhex payload = Some chunk -> (length chunk <= 196)%nat ->
  index <= 65535 -> n <= 255 ->
  exists packet header c t,
    generate_packet payload index n = Some packet
    /\ fromhex (generate_header payload index n) = Some header
    /\ fromhex packet = Some (header ++ chunk ++ [c; t])
    /\ byte_val c = total (header ++ chunk) mod 256
    /\ byte_val t = total (header ++ chunk) / 256.
Proof.
  intros Hp Hlen Hi Hn.
  destruct (generate_packet_bytes payload chunk index n) as (packet & Hg & Hb);
    try lia; try assumption.
  set (header := header_bytes (N.of_nat (length chunk) + 41) index n) in *.
  assert (Hsum : total (header ++ chunk) < 65536).
  { pose proof (total_bound (header ++ chunk)) as B.
    rewrite length_app in B. unfold header in B at 2.
    rewrite length_header_bytes in B. lia. }
  exists packet, header.
  exists (byte_of (total (header ++ chunk) mod 256)).
  exists (byte_of (total (header ++ chunk) / 256)).
  split; [exact Hg|].
  split; [apply fromhex_header_alone; lia || assumption|].
  split; [rewrite Hb, <- app_assoc; reflexivity|].
  split; apply byte_val_of; lia.
Qed.

Lemma packet_trailer_witness :
  exists packet header c t,
    generate_packet zero_chunk 15 16 = Some packet
    /\ fromhex (generate_header zero_chunk 15 16) = Some header
    /\ fromhex packet = Some (header ++ repeat x00 196 ++ [c; t])
    /\ byte_val c = total (header ++ repeat x00 196) mod 256
    /\ byte_val t = total (header ++ repeat x00 196) / 256.
Proof.
  apply (packet_trailer zero_chunk (repeat x00 196) 15 16);
    [reflexivity | vm_compute; lia | lia | lia].
Defined.

(** C6, as the specification states it, fails: the frame of the zero chunk
    with index 0 of 1 has 243 bytes, not 28 + 196 + 2 = 226, and the fixed
    constant segment of the header has 27 bytes, not 28. *)
Lemma frame_length_counterexample :
  exists packet bytes,
    generate_packet zero_chunk 0 1 = Some packet
    /\ fromhex packet = Some bytes
    /\ length bytes = 243%nat
    /\ length bytes <> (28 + 196 + 2)%nat
    /\ length (literal_bytes header_constant) = 27%nat
    /\ length (literal_bytes header_constant) <> 28%nat.
Proof.
  eexists. eexists.
  split; [vm_compute; reflexivity|].
  split; [vm_compute; reflexivity|].
  split; [vm_compute; reflexivity|].
  split; [vm_compute; discriminate|].
  split; [vm_compute; reflexivity|].
  vm_compute. discriminate.
Qed.

(** C6, amended: every data frame (chunk of 196 bytes, index up to 65535,
    count up to 255) has 45 + 196 + 2 = 243 bytes; its length field, the
    fifth byte, is 237 = 40 + 196 + 1 and counts the bytes after itself up
    to and including the checksum byte, so that the frame has 5 + 237 + 1
    bytes; the fixed constant segment of the header has 27 bytes. *)
Theorem frame_length (payload : str) (chunk : list byte) (index n : N) :
  fromhex payload = Some chunk -> length chunk = 196%nat ->
  index <= 65535 -> n <= 255 ->
  exists packet bytes len,
    generate_packet payload index n = Some packet
    /\ fromhex packet = Some bytes
    /\ length bytes = (45 + 196 + 2)%nat
    /\ nth_error bytes 4 = Some len
    /\ byte_val len = 40 + 196 + 1
    /\ N.of_nat (length bytes) = 5 + byte_val len + 1
    /\ length (literal_bytes header_constant) = 27%nat.
Proof.
  intros Hp Hlen Hi Hn.
  destruct (generate_packet_bytes payload chunk index n) as (packet & Hg & Hb);
    try lia; try assumption.
  rewrite Hlen in Hb.
  exists packet. eexists. exists xed.
  split; [exact Hg|]. split; [exact Hb|].
  assert (L : length ((header_bytes (N.of_nat 196 + 41) index n ++ chunk)
                      ++ trailer (header_bytes (N.of_nat 196 + 41) index n
                                  ++ chunk)) = 243%nat)
    by (rewrite !length_app, Hlen; reflexivity).
  split; [exact L|].
  split; [rewrite <- !app_assoc; reflexivity|].
  split; [reflexivity|].
  split; [rewrite L; reflexivity | reflexivity].
Qed.

Lemma frame_length_witness :
  exists packet bytes len,
    generate_packet zero_chunk 0 1 = Some packet
    /\ fromhex packet = Some bytes
    /\ length bytes = (45 + 196 + 2)%nat
    /\ nth_error bytes 4 = Some len
    /\ byte_val len = 40 + 196 + 1
    /\ N.of_nat (length bytes) = 5 + byte_val len + 1
    /\ length (literal_bytes header_constant) = 27%nat.
Proof.
  apply (frame_length zero_chunk (repeat x00 196) 0 1);
    [reflexivity | reflexivity | lia | lia].
Defined.

(** C7, as the specification states it, fails: for index 1 of 2 the three
    bytes of the index field are 00 01 00, the high byte first, and not
    the little-endian 01 00 followed by 00. *)
Lemma index_field_counterexample :
  exists header,
    fromhex (generate_header zero_chunk 1 2) = Some header
    /\ slice header 5 8 = [x00; x01; x00]
    /\ index_bytes_little_endian 1 = [x01; x00; x00]
    /\ slice header 5 8 <> index_bytes_little_endian 1.
Proof.
  eexists.
  split; [vm_compute; reflexivity|].
  split; [vm_compute; reflexivity|].
  split; [vm_compute; reflexivity|].
  vm_compute. discriminate.
Qed.

(** C7, amended: for every index up to 65535 (so for every index below a
    count of at most 255) the header holds the index as a 2-byte
    big-endian field, the high byte first, followed by one zero byte; the
    three bytes stand twice in the header, at offsets 5 to 7 and 36 to 38,
    and the two occurrences are the same bytes. *)
Theorem index_field (payload : str) (chunk : list byte) (index n : N) :
  fromhex payload = Some chunk -> (length chunk <= 196)%nat ->
  index <= 65535 -> n <= 255 ->
  exists header,
    fromhex (generate_header payload index n) = Some header
    /\ slice header 5 8 = [byte_of (index / 256); byte_of (index mod 256); x00]
    /\ slice header 36 39 = slice header 5 8
    /\ byte_val (byte_of (index / 256)) * 256 + byte_val (byte_of (index mod 256))
       = index.
Proof.
  intros Hp Hlen Hi Hn. eexists.
  split; [apply (fromhex_header_alone payload chunk); lia || assumption|].
  split; [reflexivity|]. split; [reflexivity|].
  rewrite !byte_val_of by lia. lia.
Qed.

Lemma index_field_witness :
  exists header,
    fromhex (generate_header zero_chunk 1 2) = Some header
    /\ slice header 5 8 = [byte_of (1 / 256); byte_of (1 mod 256); x00]
    /\ slice header 36 39 = slice header 5 8
    /\ byte_val (byte_of (1 / 256)) * 256 + byte_val (byte_of (1 mod 256)) = 1.
Proof.
  apply (index_field zero_chunk (repeat x00 196) 1 2);
    [reflexivity | vm_compute; lia | lia | lia].
Defined.

(* ================================================================== *)
(** * The checksum engine *)

(** C2, as the specification states it, fails twice.  For the three bytes
    ff ff 00 the code answers 01, the sum of the first two bytes divided
    by 256, where the specification leaves the last two bytes out and gets
    0.  And nothing is cut to one byte: for 258 bytes ff followed by 00
    the code answers the three digits 100. *)
Lemma calculate_last_byte_counterexample :
  calculate_last_byte (bytes_hex [xff; xff; x00]) = Some (lit "01")
  /\ trailing_byte_spec [xff; xff; x00] = 0
  /\ calculate_last_byte (bytes_hex (repeat xff 258 ++ [x00])) = Some (lit "100").
Proof. repeat split; vm_compute; reflexivity. Qed.

(** C2, amended: for every byte sequence, given as hex text,
    [calculate_last_byte] returns the sum of all the bytes but the last
    one, divided by 256, written with at least two upper-case hex digits;
    the result is one byte, in [0, 255], whenever that sum is below 65536,
    and nothing is cut off otherwise. *)
Theorem calculate_last_byte_value (s : str) (bs : list byte) :
  fromhex s = Some bs ->
  let high := total (removelast bs) / 256 in
  calculate_last_byte s = Some (format_02X high)
  /\ (total (removelast bs) < 65536 ->
      fromhex (format_02X high) = Some [byte_of high]
      /\ byte_val (byte_of high) = high
      /\ high <= 255).
Proof.
  intros H high. split; [now apply calculate_last_byte_bytes|].
  intros Hs. assert (high < 256) by (unfold high; lia).
  rewrite format_02X_byte by assumption.
  rewrite <- (app_nil_r (upper _)), fromhex_upper_byte_hex.
  repeat split; [now apply byte_val_of | lia].
Qed.

Lemma calculate_last_byte_value_witness :
  let high := total (removelast [xff; xff; x00]) / 256 in
  calculate_last_byte (bytes_hex [xff; xff; x00]) = Some (format_02X high)
  /\ (total (removelast [xff; xff; x00]) < 65536 ->
      fromhex (format_02X high) = Some [byte_of high]
      /\ byte_val (byte_of high) = high
      /\ high <= 255).
Proof.
  apply (calculate_last_byte_value (bytes_hex [xff; xff; x00]) [xff; xff; x00]).
  reflexivity.
Defined.

(** C10: each of the fixed control frames that the session writes, the two
    reset frames and the finalize frame, follows the trailer scheme of the
    data packets: its byte before the last is [checksum_mod256] of the
    bytes before it, and its last byte is the sum of those same bytes
    divided by 256. *)
Theorem control_frames_conform :
  Forall trailer_conforms [reset_frame_1; reset_frame_2; finalize_frame].
Proof.
  repeat constructor.
  - exists (literal_bytes (firstn 28 reset_frame_1)), xdc, x04.
    repeat split; vm_compute; reflexivity.
  - exists (literal_bytes (firstn 28 reset_frame_2)), xdd, x03.
    repeat split; vm_compute; reflexivity.
  - exists (literal_bytes (firstn 30 finalize_frame)), x14, x04.
    repeat split; vm_compute; reflexivity.
Qed.

(* ================================================================== *)
(** * The chunker and its limit *)

Lemma hex_chunks_count (bs : list byte) :
  length (hex_chunks (bytes_hex bs) 392) = ((length bs + 195) / 196)%nat.
Proof.
  change 392%nat with (2 * 196)%nat.
  rewrite hex_chunks_bytes by lia.
  rewrite length_map, padded_slices_count. reflexivity.
Qed.

(** The list comprehension of [file_to_hex_chunks] on the hex text of a
    byte sequence: the count of the slices, their length, and the bytes
    they stand for. *)
Lemma hex_chunks_reconstruct (bs : list byte) :
  let chunks := hex_chunks (bytes_hex bs) 392 in
  length chunks = ((length bs + 195) / 196)%nat
  /\ Forall (fun c => length c = 392%nat) chunks
  /\ exists cbs,
       traverse fromhex chunks = Some cbs
       /\ Forall (fun c => length c = 196%nat) cbs
       /\ firstn (length bs) (concat cbs) = bs.
Proof.
  intros chunks. split; [apply hex_chunks_count|].
  split; [apply padded_slices_length; lia|].
  exists (padded_slices bs 196 x00).
  split.
  - unfold chunks. change 392%nat with (2 * 196)%nat.
    rewrite hex_chunks_bytes by lia. apply traverse_fromhex.
  - split; [apply padded_slices_length | apply padded_slices_concat]; lia.
Qed.

(** C4, as the specification states it, fails: [generate_packet] returns a
    packet for index = N = 1, for index = N = 255 and for N = 256. *)
Lemma encoder_range_counterexample :
  (exists packet, generate_packet zero_chunk 1 1 = Some packet)
  /\ (exists packet, generate_packet zero_chunk 255 255 = Some packet)
  /\ (exists packet, generate_packet zero_chunk 0 256 = Some packet).
Proof. repeat split; eexists; vm_compute; reflexivity. Qed.

(** C4, amended: [generate_packet] checks no range and has no
    IndexOutOfRange failure: for every chunk given as hex digits it
    returns a packet for every index and every count N, also when the
    index is not below N and when N exceeds 255; in particular it never
    fails for an index below N <= 255. *)
Theorem encoder_never_fails (payload : str) (index n : N) :
  forallb is_hex_digit payload = true ->
  exists packet, generate_packet payload index n = Some packet.
Proof.
  intros H. apply generate_packet_total.
  apply Forall_forall. now apply forallb_forall.
Qed.

Lemma encoder_never_fails_witness :
  exists packet, generate_packet zero_chunk 255 255 = Some packet.
Proof. apply (encoder_never_fails zero_chunk 255 255). reflexivity. Defined.

Lemma file_to_hex_chunks_count (content : list byte) :
  gif_signature (bytes_hex content) = true ->
  file_to_hex_chunks (Some content)
  = if (255 <? (length content + 195) / 196)%nat then inl TooLarge
    else inr (hex_chunks (bytes_hex content) 392).
Proof.
  intros H. unfold file_to_hex_chunks. rewrite H. cbn [negb].
  now rewrite hex_chunks_count.
Qed.

(** C3: for every payload of length L (a byte sequence that begins with a
    GIF signature and has at most 255 x 196 bytes, the two things that
    [file_to_hex_chunks] checks), [file_to_hex_chunks] returns, and what
    it returns is ceil(L / 196) chunks, each of exactly 196 bytes (392
    hex digits), which concatenated in order and cut to L bytes are the
    original bytes. *)
Theorem chunker_chunks (content : list byte) :
  gif_signature (bytes_hex content) = true ->
  (length content <= 255 * 196)%nat ->
  exists chunks cbs,
    file_to_hex_chunks (Some content) = inr chunks
    /\ length chunks = ((length content + 195) / 196)%nat
    /\ Forall (fun c => length c = 392%nat) chunks
    /\ traverse fromhex chunks = Some cbs
    /\ Forall (fun c => length c = 196%nat) cbs
    /\ firstn (length content) (concat cbs) = content.
Proof.
  intros G Hlen.
  assert (Hcount : ((length content + 195) / 196 <= 255)%nat).
  { apply Nat.lt_succ_r. apply Nat.Div0.div_lt_upper_bound. lia. }
  destruct (hex_chunks_reconstruct content) as (Hn & H392 & cbs & Ht & H196 & Hcat).
  exists (hex_chunks (bytes_hex content) 392), cbs.
  split; [|now repeat split].
  rewrite file_to_hex_chunks_count by assumption.
  destruct (Nat.ltb_spec 255 ((length content + 195) / 196));
    [lia | reflexivity].
Qed.

Lemma chunker_chunks_witness :
  exists chunks cbs,
    file_to_hex_chunks (Some (encode_ascii "GIF89a1234")) = inr chunks
    /\ length chunks = ((length (encode_ascii "GIF89a1234") + 195) / 196)%nat
    /\ Forall (fun c => length c = 392%nat) chunks
    /\ traverse fromhex chunks = Some cbs
    /\ Forall (fun c => length c = 196%nat) cbs
    /\ firstn (length (encode_ascii "GIF89a1234")) (concat cbs)
       = encode_ascii "GIF89a1234".
Proof.
  apply (chunker_chunks (encode_ascii "GIF89a1234")); [reflexivity|].
  change (length (encode_ascii "GIF89a1234")) with 10%nat. lia.
Defined.

(** C5: a payload of exactly 255 x 196 bytes (with a GIF signature) is cut
    into 255 chunks and is not rejected; a payload of 255 x 196 + 1 bytes
    is rejected as too large, and then [main] stops before anything is
    written to the transport. *)
Theorem chunk_count_limit (c1 c2 : list byte) :
  gif_signature (bytes_hex c1) = true ->
  gif_signature (bytes_hex c2) = true ->
  length c1 = (255 * 196)%nat ->
  length c2 = (255 * 196 + 1)%nat ->
  (exists chunks, file_to_hex_chunks (Some c1) = inr chunks
                  /\ length chunks = 255%nat)
  /\ file_to_hex_chunks (Some c2) = inl TooLarge
  /\ forall dev, run (main (Some c2) dev) = ([], inr (SysExit TooLarge)).
Proof.
  intros G1 G2 L1 L2.
  assert (N1 : ((length c1 + 195) / 196 = 255)%nat).
  { rewrite L1, Nat.div_add_l, (Nat.div_small 195) by lia. lia. }
  assert (N2 : ((length c2 + 195) / 196 = 256)%nat).
  { replace (length c2 + 195)%nat with (256 * 196)%nat by lia.
    apply Nat.div_mul. lia. }
  assert (E2 : file_to_hex_chunks (Some c2) = inl TooLarge)
    by (rewrite file_to_hex_chunks_count, N2 by assumption; reflexivity).
  split; [|split; [exact E2|]].
  - eexists. split.
    + rewrite file_to_hex_chunks_count, N1 by assumption. reflexivity.
    + now rewrite hex_chunks_count.
  - intros dev. unfold run, main. rewrite E2. reflexivity.
Qed.

Lemma chunk_count_limit_witness :
  (exists chunks,
     file_to_hex_chunks
       (Some (encode_ascii "GIF89a" ++ repeat x00 (255 * 196 - 6)))
     = inr chunks /\ length chunks = 255%nat)
  /\ file_to_hex_chunks
       (Some (encode_ascii "GIF89a" ++ repeat x00 (255 * 196 - 5)))
     = inl TooLarge
  /\ forall dev,
       run (main (Some (encode_ascii "GIF89a" ++ repeat x00 (255 * 196 - 5)))
                 dev)
       = ([], inr (SysExit TooLarge)).
Proof.
  apply (chunk_count_limit
           (encode_ascii "GIF89a" ++ repeat x00 (255 * 196 - 6))
           (encode_ascii "GIF89a" ++ repeat x00 (255 * 196 - 5)));
    [reflexivity | reflexivity | | ];
    rewrite length_app, repeat_length; cbn [encode_ascii length]; simpl length;
    lia.
Defined.

(* ================================================================== *)
(** * The upload session *)

Lemma full_chunk_bytes (c : str) :
  full_chunk c = true ->
  exists bs, fromhex c = Some bs /\ length bs = 196%nat.
Proof.
  unfold full_chunk. destruct (fromhex c) as [bs|]; [|discriminate].
  intros H. apply Nat.eqb_eq in H. now exists bs.
Qed.

Lemma packet_frame_full (c : str) (i total : N) :
  full_chunk c = true -> i < 65536 -> total < 256 ->
  exists frame, packet_frame c i total = Some frame.
Proof.
  intros Hc Hi Ht. destruct (full_chunk_bytes c Hc) as (bs & Hb & Hl).
  destruct (generate_packet_bytes c bs i total) as (packet & Hg & Hf);
    try lia; try assumption.
  unfold packet_frame. rewrite Hg, Hf. now eexists.
Qed.

(** One round of the loop: the frame is written, then the round ends well
    if the device notifies and with [sys.exit(1)] if it does not. *)
Lemma send_packet_run (dev : device) (c : str) (i total : N)
    (frame : list byte) (tr : trace) :
  packet_frame c i total = Some frame ->
  write_ok dev (length tr) = true ->
  send_packet dev c i total tr
  = (tr ++ [frame],
     if notified dev i then inl tt
     else inr (SysExit (UploadError TimeoutError))).
Proof.
  unfold packet_frame.
  destruct (generate_packet c i total) as [packet|] eqn:Hg; [|discriminate].
  intros Hf Hw.
  cbv [send_packet try_except bind value_of write_gatt_char
       wait_for_notification sys_exit ret raise].
  rewrite Hg, Hf, Hw.
  now destruct (notified dev i).
Qed.

Lemma packet_frames_length (chunks : list str) :
  forall start total,
  Forall (fun c => full_chunk c = true) chunks ->
  start + N.of_nat (length chunks) <= 65536 -> total < 256 ->
  length (packet_frames chunks start total) = length chunks.
Proof.
  induction chunks as [|c rest IH]; intros start total Hf Hs Ht;
    [reflexivity|].
  inversion Hf as [|? ? Hc Hrest]; subst. cbn [packet_frames length] in *.
  destruct (packet_frame_full c start total) as [frame ->];
    try assumption; try lia.
  cbn [length]. f_equal. apply IH; try assumption; lia.
Qed.

(** The loop, when the device notifies after each of the first [k]
    packets and stays silent after the next one: the frames of the chunks
    up to that one are written, in order, and the script exits. *)
Lemma send_packets_timeout (dev : device) (total : N) (chunks : list str) :
  (forall m, write_ok dev m = true) -> total < 256 ->
  forall start tr k,
  Forall (fun c => full_chunk c = true) chunks ->
  start + N.of_nat (length chunks) <= 65536 ->
  (k < length chunks)%nat ->
  (forall j, (j < k)%nat -> notified dev (start + N.of_nat j) = true) ->
  notified dev (start + N.of_nat k) = false ->
  send_packets dev chunks start total tr
  = (tr ++ packet_frames (firstn (S k) chunks) start total,
     inr (SysExit (UploadError TimeoutError))).
Proof.
  intros Hw Ht.
  induction chunks as [|c rest IH]; intros start tr k Hf Hs Hk Hack Hsilent;
    [simpl in Hk; lia|].
  inversion Hf as [|? ? Hc Hrest]; subst. cbn [length] in Hs, Hk.
  destruct (packet_frame_full c start total) as [frame Hframe];
    try assumption; try lia.
  cbn [send_packets firstn packet_frames]. rewrite Hframe.
  unfold bind at 1. rewrite (send_packet_run dev c start total frame tr Hframe)
    by apply Hw.
  destruct k as [|k].
  - replace (start + N.of_nat 0) with start in Hsilent by lia.
    rewrite Hsilent. reflexivity.
  - assert (Hfirst : notified dev start = true)
      by (rewrite <- (N.add_0_r start); apply (Hack 0%nat); lia).
    rewrite Hfirst.
    rewrite (IH (start + 1) (tr ++ [frame]) k); try assumption; try lia.
    + now rewrite <- app_assoc.
    + intros j Hj. replace (start + 1 + N.of_nat j)
        with (start + N.of_nat (S j)) by lia. apply Hack. lia.
    + now replace (start + 1 + N.of_nat k) with (start + N.of_nat (S k)) by lia.
Qed.

Lemma reset_screen_run (dev : device) (tr : trace) :
  (forall m, write_ok dev m = true) ->
  reset_screen dev tr = (tr ++ reset_frames, inl tt).
Proof.
  intros Hw. unfold reset_screen, bind, write_gatt_char.
  change (value_of (fromhex reset_frame_1) tr)
    with (tr, @inl _ abort (literal_bytes reset_frame_1)).
  cbv beta iota. rewrite Hw.
  change (value_of (fromhex reset_frame_2) (tr ++ [literal_bytes reset_frame_1]))
    with (tr ++ [literal_bytes reset_frame_1],
          @inl _ abort (literal_bytes reset_frame_2)).
  cbv beta iota. rewrite Hw. now rewrite <- app_assoc.
Qed.

(** C8: if the device acknowledges the packets before packet [k] and no
    acknowledgment arrives after packet [k] is written, the session ends
    with the timeout failure: what was written is the two reset frames
    and the frames of packets 0 to [k], each once and in order, so the
    timed-out packet is not written again, packet [k + 1] is never
    written and neither is the finalize frame. *)
Theorem ack_timeout_aborts (dev : device) (chunks : list str) (k : nat) :
  is_connected dev = true ->
  indications_ok dev = true ->
  notifications_ok dev = true ->
  (forall m, write_ok dev m = true) ->
  forallb full_chunk chunks = true ->
  (length chunks <= 255)%nat ->
  (k < length chunks)%nat ->
  (forall j, (j < k)%nat -> notified dev (N.of_nat j) = true) ->
  notified dev (N.of_nat k) = false ->
  let frames :=
    packet_frames (firstn (S k) chunks) 0 (N.of_nat (length chunks)) in
  run (session dev chunks)
  = (reset_frames ++ frames, inr (SysExit (UploadError TimeoutError)))
  /\ length frames = S k.
Proof.
  intros Hc Hi Hn Hw Hfull Hlen Hk Hack Hsilent frames.
  assert (Hf : Forall (fun c => full_chunk c = true) chunks)
    by (apply Forall_forall; now apply forallb_forall).
  split.
  - unfold run, session. rewrite Hc, Hi, Hn.
    unfold start_notify, bind at 1 2 3, ret.
    rewrite reset_screen_run by assumption. unfold bind at 1.
    rewrite (send_packets_timeout dev (N.of_nat (length chunks)) chunks Hw)
      with (k := k); try assumption; try lia.
    reflexivity.
  - unfold frames. rewrite packet_frames_length.
    + rewrite length_firstn. lia.
    + rewrite <- (firstn_skipn (S k) chunks) in Hf.
      now apply Forall_app in Hf.
    + rewrite length_firstn. lia.
    + lia.
Qed.

Lemma ack_timeout_aborts_witness :
  let frames := packet_frames (firstn 1 [zero_chunk; zero_chunk]) 0 (N.of_nat 2) in
  run (session silent_device [zero_chunk; zero_chunk])
  = (reset_frames ++ frames, inr (SysExit (UploadError TimeoutError)))
  /\ length frames = 1%nat.
Proof.
  apply (ack_timeout_aborts silent_device [zero_chunk; zero_chunk] 0);
    try reflexivity.
  - simpl. lia.
  - simpl. lia.
  - intros j Hj. lia.
Defined.

(* ================================================================== *)
(** * Further properties of the checksum engine *)

(** X1: on the hex text of any byte sequence [checksum_mod256] returns
    exactly two hex digits; read as a byte they are the sum of the bytes
    modulo 256, a value in [0, 255]; when the sum is a multiple of 256 the
    text is "00". *)
Theorem checksum_mod256_value (s : str) (bs : list byte) :
  fromhex s = Some bs ->
  exists out,
    checksum_mod256 s = Some out
    /\ length out = 2%nat
    /\ fromhex out = Some [byte_of (total bs mod 256)]
    /\ byte_val (byte_of (total bs mod 256)) = total bs mod 256
    /\ total bs mod 256 <= 255
    /\ (total bs mod 256 = 0 -> out = lit "00").
Proof.
  intros H. assert (B : total bs mod 256 < 256) by lia.
  eexists. split; [apply (checksum_mod256_bytes s bs H)|].
  fold (total bs). rewrite format_02X_byte by assumption.
  split; [reflexivity|].
  split; [rewrite <- (app_nil_r (upper _)), fromhex_upper_byte_hex;
          reflexivity|].
  split; [now apply byte_val_of|]. split; [lia|].
  intros ->. reflexivity.
Qed.

Lemma checksum_mod256_value_witness :
  exists out,
    checksum_mod256 (lit "ff01") = Some out
    /\ length out = 2%nat
    /\ fromhex out = Some [byte_of (total [xff; x01] mod 256)]
    /\ byte_val (byte_of (total [xff; x01] mod 256)) = total [xff; x01] mod 256
    /\ total [xff; x01] mod 256 <= 255
    /\ (total [xff; x01] mod 256 = 0 -> out = lit "00").
Proof. apply (checksum_mod256_value (lit "ff01") [xff; x01]). reflexivity. Defined.

Lemma total_permutation (b1 b2 : list byte) :
  Permutation b1 b2 -> total b1 = total b2.
Proof.
  induction 1 as [|b l l' _ IH|a b l|l l' l'' _ IH1 _ IH2].
  - reflexivity.
  - change (byte_val b + total l = byte_val b + total l'). lia.
  - change (byte_val b + (byte_val a + total l)
            = byte_val a + (byte_val b + total l)). lia.
  - congruence.
Qed.

(** X2: the checksum does not depend on the order of the bytes: two byte
    sequences that are permutations of each other have the same
    [checksum_mod256]. *)
Theorem checksum_mod256_permutation (b1 b2 : list byte) :
  Permutation b1 b2 ->
  checksum_mod256 (bytes_hex b1) = checksum_mod256 (bytes_hex b2).
Proof.
  intros P.
  rewrite (checksum_mod256_bytes _ _ (fromhex_bytes_hex b1)).
  rewrite (checksum_mod256_bytes _ _ (fromhex_bytes_hex b2)).
  fold (total b1) (total b2). now rewrite (total_permutation b1 b2 P).
Qed.

Lemma checksum_mod256_permutation_witness :
  checksum_mod256 (bytes_hex [x01; xfe; x10])
  = checksum_mod256 (bytes_hex [xfe; x01; x10]).
Proof.
  apply (checksum_mod256_permutation [x01; xfe; x10] [xfe; x01; x10]).
  apply perm_swap.
Defined.

(* ================================================================== *)
(** * Further properties of the chunker *)

Section Padding.
Local Open Scope nat_scope.
Context {A : Type}.
Variable n : nat.
Variable fill : A.
Hypothesis n_pos : 0 < n.

Lemma padded_slices_cover (s : list A) :
  length s <= length (padded_slices s n fill) * n.
Proof.
  pose proof (padded_slices_length n fill n_pos s) as F.
  assert (L : length (concat (padded_slices s n fill))
              = length (padded_slices s n fill) * n).
  { induction F as [|c l Hc _ IH]; [reflexivity|].
    cbn [concat length]. rewrite length_app, Hc, IH. lia. }
  pose proof (padded_slices_concat n fill n_pos s) as C.
  apply (f_equal (@length A)) in C. rewrite length_firstn in C. lia.
Qed.

(** The chunks in order are the sequence followed by fill elements only,
    fewer than one chunk of them. *)
Lemma padded_slices_concat_fill (s : list A) :
  concat (padded_slices s n fill)
  = s ++ repeat fill (length (padded_slices s n fill) * n - length s).
Proof.
  induction s as [s IH] using (induction_ltof1 _ (@length _)).
  unfold ltof in IH.
  destruct s as [|a s']; [now rewrite padded_slices_nil|].
  set (s := a :: s') in *.
  pose proof (padded_slices_cover (skipn n s)) as Cov.
  rewrite length_skipn in Cov.
  rewrite padded_slices_cons by (assumption || discriminate).
  cbn [concat length].
  rewrite IH by (rewrite length_skipn; subst s; cbn [length]; lia).
  rewrite length_skipn.
  destruct (Nat.le_gt_cases (length s) n) as [Hle|Hgt].
  - rewrite (firstn_all2 (n := n) s), (skipn_all2 (n := n) s) by assumption.
    rewrite padded_slices_nil. cbn [length app]. unfold ljust.
    rewrite <- app_assoc, <- repeat_app. do 2 f_equal. lia.
  - unfold ljust. rewrite length_firstn.
    replace (n - Nat.min n (length s)) with 0 by lia.
    cbn [repeat]. rewrite app_nil_r, app_assoc, firstn_skipn.
    do 2 f_equal. lia.
Qed.

Lemma padded_slices_fill_small (s : list A) :
  length (padded_slices s n fill) * n - length s < n.
Proof.
  rewrite padded_slices_count.
  pose proof (Nat.div_mod_eq (length s + (n - 1)) n) as E.
  pose proof (Nat.mod_upper_bound (length s + (n - 1)) n) as B.
  nia.
Qed.

End Padding.

(** X3: the chunks of a byte sequence, read back as bytes and joined in
    order, are the sequence itself followed by zero bytes only, fewer
    than 196 of them: the chunker pads at the very end and nowhere
    else. *)
Theorem chunks_padding (bs : list byte) :
  exists cbs,
    traverse fromhex (hex_chunks (bytes_hex bs) 392) = Some cbs
    /\ concat cbs = bs ++ repeat x00 (length cbs * 196 - length bs)
    /\ (length cbs * 196 - length bs < 196)%nat.
Proof.
  exists (padded_slices bs 196 x00). split.
  - change 392%nat with (2 * 196)%nat.
    rewrite hex_chunks_bytes by lia. apply traverse_fromhex.
  - split; [apply padded_slices_concat_fill | apply padded_slices_fill_small];
      lia.
Qed.

Lemma full_chunk_bytes_hex (cb : list byte) :
  length cb = 196%nat -> full_chunk (bytes_hex cb) = true.
Proof.
  intros H. unfold full_chunk. rewrite fromhex_bytes_hex, H. reflexivity.
Qed.

(** What [file_to_hex_chunks] returns, when it returns. *)
Lemma file_to_hex_chunks_inr (content : list byte) (chunks : list str) :
  file_to_hex_chunks (Some content) = inr chunks ->
  chunks = hex_chunks (bytes_hex content) 392
  /\ length chunks = ((length content + 195) / 196)%nat
  /\ (1 <= length chunks <= 255)%nat
  /\ forallb full_chunk chunks = true.
Proof.
  intros H.
  assert (G : gif_signature (bytes_hex content) = true).
  { unfold file_to_hex_chunks in H.
    destruct (gif_signature (bytes_hex content)); [reflexivity|discriminate]. }
  rewrite file_to_hex_chunks_count in H by assumption.
  destruct (Nat.ltb_spec 255 ((length content + 195) / 196)) as [Hgt|Hle];
    [discriminate|].
  injection H as <-.
  split; [reflexivity|]. split; [apply hex_chunks_count|].
  rewrite hex_chunks_count. split.
  - split; [|assumption].
    destruct content as [|b content]; [discriminate|].
    cbn [length]. apply (Nat.div_le_lower_bound _ 196 1); lia.
  - change 392%nat with (2 * 196)%nat.
    rewrite hex_chunks_bytes by lia.
    apply forallb_forall. intros c Hc.
    apply in_map_iff in Hc as (cb & <- & Hcb).
    apply full_chunk_bytes_hex.
    pose proof (padded_slices_length 196 x00 ltac:(lia) content) as F.
    rewrite Forall_forall in F. now apply F.
Qed.

(** X4: what [file_to_hex_chunks] returns, when it returns: the padded
    slices of the hex text of the file, between 1 and 255 of them, as
    many as the length of the file divided by 196 and rounded up, each
    the hex text of exactly 196 bytes. *)
Theorem file_to_hex_chunks_returns (content : list byte) (chunks : list str) :
  file_to_hex_chunks (Some content) = inr chunks ->
  chunks = hex_chunks (bytes_hex content) 392
  /\ length chunks = ((length content + 195) / 196)%nat
  /\ (1 <= length chunks <= 255)%nat
  /\ forallb full_chunk chunks = true.
Proof. exact (file_to_hex_chunks_inr content chunks). Qed.

Lemma file_to_hex_chunks_returns_witness :
  hex_chunks (bytes_hex (encode_ascii "GIF89a1234")) 392
  = hex_chunks (bytes_hex (encode_ascii "GIF89a1234")) 392
  /\ length (hex_chunks (bytes_hex (encode_ascii "GIF89a1234")) 392)
     = ((length (encode_ascii "GIF89a1234") + 195) / 196)%nat
  /\ (1 <= length (hex_chunks (bytes_hex (encode_ascii "GIF89a1234")) 392)
      <= 255)%nat
  /\ forallb full_chunk (hex_chunks (bytes_hex (encode_ascii "GIF89a1234")) 392)
     = true.
Proof.
  apply (file_to_hex_chunks_returns (encode_ascii "GIF89a1234")).
  vm_compute. reflexivity.
Defined.

Lemma byte_hex_inj (b b' : byte) : byte_hex b = byte_hex b' -> b = b'.
Proof.
  intros E. apply (f_equal int16) in E. rewrite !int16_byte_hex in E.
  injection E as E. rewrite <- (byte_of_val b), <- (byte_of_val b'). now f_equal.
Qed.

(** A test of the hex text against the hex of a prefix is a test of the
    bytes against the prefix. *)
Lemma startswith_bytes_hex (prefix : list byte) :
  forall content,
  startswith (bytes_hex content) (bytes_hex prefix) = true
  <-> firstn (length prefix) content = prefix.
Proof.
  induction prefix as [|b prefix IH]; intros content.
  - split; [reflexivity|]. intros _. now destruct (bytes_hex content).
  - destruct content as [|b' content].
    + split; discriminate.
    + cbn [bytes_hex flat_map byte_hex app startswith length firstn].
      fold (bytes_hex content) (bytes_hex prefix).
      rewrite !andb_true_iff, !Ascii.eqb_eq, IH. split.
      * intros (E1 & E2 & E3). f_equal; [|assumption].
        symmetry. apply byte_hex_inj. unfold byte_hex. now rewrite E1, E2.
      * intros [= -> E]. auto.
Qed.

(** X5: the "naive GIF file validation", made on the hex text, accepts
    exactly the files whose first six bytes are GIF87a or GIF89a; every
    other file, shorter ones included, is refused as not a GIF. *)
Theorem gif_validation (content : list byte) :
  file_to_hex_chunks (Some content) = inl NotAGif
  <-> firstn 6 content <> encode_ascii "GIF87a"
      /\ firstn 6 content <> encode_ascii "GIF89a".
Proof.
  pose proof (startswith_bytes_hex (encode_ascii "GIF87a") content) as S7.
  pose proof (startswith_bytes_hex (encode_ascii "GIF89a") content) as S9.
  change (length (encode_ascii "GIF87a")) with 6%nat in S7.
  change (length (encode_ascii "GIF89a")) with 6%nat in S9.
  unfold file_to_hex_chunks, gif_signature.
  destruct (startswith (bytes_hex content) (bytes_hex (encode_ascii "GIF87a")));
    destruct (startswith (bytes_hex content) (bytes_hex (encode_ascii "GIF89a")));
    cbn [orb negb].
  1-3: split; [intros E | intros [E7 E9]].
  1, 3, 5: destruct (_ <? _)%nat; discriminate.
  1-2: exfalso; apply E7; now apply S7.
  1: exfalso; apply E9; now apply S9.
  split; [intros _ | reflexivity].
  split; intros E; [apply S7 in E | apply S9 in E]; discriminate.
Qed.

(* ================================================================== *)
(** * Further properties of the session *)

Lemma packet_frame_length (c : str) (i total : N) (frame : list byte) :
  full_chunk c = true -> i < 65536 -> total < 256 ->
  packet_frame c i total = Some frame -> length frame = 243%nat.
Proof.
  intros Hc Hi Ht. destruct (full_chunk_bytes c Hc) as (bs & Hb & Hl).
  destruct (generate_packet_bytes c bs i total) as (packet & Hg & Hf);
    try lia; try assumption.
  unfold packet_frame. rewrite Hg, Hf. intros E. apply some_inj in E.
  subst frame. rewrite !length_app, length_header_bytes, Hl. reflexivity.
Qed.

Lemma packet_frames_all_243 (chunks : list str) :
  forall start total,
  Forall (fun c => full_chunk c = true) chunks ->
  start + N.of_nat (length chunks) <= 65536 -> total < 256 ->
  Forall (fun f => length f = 243%nat) (packet_frames chunks start total).
Proof.
  induction chunks as [|c rest IH]; intros start total Hf Hs Ht;
    [constructor|].
  inversion Hf as [|? ? Hc Hrest]; subst. cbn [packet_frames length] in *.
  destruct (packet_frame c start total) as [frame|] eqn:E; [|constructor].
  constructor.
  - apply (packet_frame_length c start total); try assumption; lia.
  - apply IH; try assumption; lia.
Qed.

(** The loop, as long as every write is taken and every packet is
    acknowledged: all the frames are written, in order. *)
Lemma send_packets_ok (dev : device) (total : N) (chunks : list str) :
  total < 256 ->
  forall start tr,
  Forall (fun c => full_chunk c = true) chunks ->
  start + N.of_nat (length chunks) <= 65536 ->
  (forall j, (j < length chunks)%nat ->
             write_ok dev (length tr + j) = true
             /\ notified dev (start + N.of_nat j) = true) ->
  send_packets dev chunks start total tr
  = (tr ++ packet_frames chunks start total, inl tt).
Proof.
  intros Ht.
  induction chunks as [|c rest IH]; intros start tr Hf Hs Hok.
  - cbn. now rewrite app_nil_r.
  - inversion Hf as [|? ? Hc Hrest]; subst. cbn [length] in Hs, Hok.
    destruct (packet_frame_full c start total) as [frame Hframe];
      try assumption; try lia.
    destruct (Hok 0%nat ltac:(lia)) as [Hw Hn].
    rewrite Nat.add_0_r in Hw. rewrite N.add_0_r in Hn.
    cbn [send_packets packet_frames]. rewrite Hframe. unfold bind at 1.
    rewrite (send_packet_run dev c start total frame tr Hframe Hw), Hn.
    rewrite IH; try assumption; try lia.
    + now rewrite <- app_assoc.
    + intros j Hj. destruct (Hok (S j) ltac:(lia)) as [Hw' Hn'].
      rewrite length_app. cbn [length].
      replace (length tr + 1 + j)%nat with (length tr + S j)%nat by lia.
      now replace (start + 1 + N.of_nat j) with (start + N.of_nat (S j)) by lia.
Qed.

Lemma send_packets_app (dev : device) (total : N) (l1 l2 : list str) :
  forall start tr,
  send_packets dev (l1 ++ l2) start total tr
  = (send_packets dev l1 start total ;;
     send_packets dev l2 (start + N.of_nat (length l1)) total) tr.
Proof.
  induction l1 as [|c l1 IH]; intros start tr.
  - cbn [app length send_packets]. unfold bind, ret.
    now rewrite N.add_0_r.
  - cbn [app length send_packets].
    replace (start + N.of_nat (S (length l1)))
      with (start + 1 + N.of_nat (length l1)) by lia.
    unfold bind in *.
    destruct (send_packet dev c start total tr) as [tr' [[]|e]];
      [|reflexivity].
    apply IH.
Qed.

Lemma send_packet_write_error (dev : device) (c : str) (i total : N)
    (frame : list byte) (tr : trace) :
  packet_frame c i total = Some frame ->
  write_ok dev (length tr) = false ->
  send_packet dev c i total tr = (tr, inr (SysExit (UploadError BleakError))).
Proof.
  unfold packet_frame.
  destruct (generate_packet c i total) as [packet|] eqn:Hg; [|discriminate].
  intros Hf Hw.
  cbv [send_packet try_except bind value_of write_gatt_char
       wait_for_notification sys_exit ret raise].
  now rewrite Hg, Hf, Hw.
Qed.

Lemma reset_screen_writes (dev : device) (tr : trace) :
  write_ok dev (length tr) = true ->
  write_ok dev (length tr + 1) = true ->
  reset_screen dev tr = (tr ++ reset_frames, inl tt).
Proof.
  intros H0 H1. unfold reset_screen, bind, write_gatt_char.
  change (value_of (fromhex reset_frame_1) tr)
    with (tr, @inl _ abort (literal_bytes reset_frame_1)).
  cbv beta iota. rewrite H0.
  change (value_of (fromhex reset_frame_2) (tr ++ [literal_bytes reset_frame_1]))
    with (tr ++ [literal_bytes reset_frame_1],
          @inl _ abort (literal_bytes reset_frame_2)).
  cbv beta iota. rewrite length_app. cbn [length]. rewrite H1.
  now rewrite <- app_assoc.
Qed.

Lemma finalize_writes (dev : device) (tr : trace) :
  write_ok dev (length tr) = true ->
  write_ok dev (length tr + 1) = true ->
  (data <- value_of (fromhex finalize_frame) ;;
   write_gatt_char dev data ;;
   data <- value_of (fromhex finalize_frame) ;;
   write_gatt_char dev data) tr
  = (tr ++ finalize_frames, inl tt).
Proof.
  intros H0 H1. unfold bind, write_gatt_char.
  change (value_of (fromhex finalize_frame) tr)
    with (tr, @inl _ abort (literal_bytes finalize_frame)).
  cbv beta iota. rewrite H0.
  change (value_of (fromhex finalize_frame)
            (tr ++ [literal_bytes finalize_frame]))
    with (tr ++ [literal_bytes finalize_frame],
          @inl _ abort (literal_bytes finalize_frame)).
  cbv beta iota. rewrite length_app. cbn [length]. rewrite H1.
  now rewrite <- app_assoc.
Qed.

(** The session with every write taken and every packet acknowledged. *)
Lemma session_run_complete (dev : device) (chunks : list str) :
  is_connected dev = true ->
  indications_ok dev = true ->
  notifications_ok dev = true ->
  (forall m, (m < length chunks + 4)%nat -> write_ok dev m = true) ->
  (forall j, (j < length chunks)%nat -> notified dev (N.of_nat j) = true) ->
  forallb full_chunk chunks = true ->
  (length chunks <= 255)%nat ->
  let frames := packet_frames chunks 0 (N.of_nat (length chunks)) in
  run (session dev chunks)
  = (reset_frames ++ frames ++ finalize_frames, inl tt)
  /\ length frames = length chunks
  /\ Forall (fun f => length f = 243%nat) frames.
Proof.
  intros Hc Hi Hn Hw Hack Hfull Hlen frames.
  assert (Hf : Forall (fun c => full_chunk c = true) chunks)
    by (apply Forall_forall; now apply forallb_forall).
  assert (L : length frames = length chunks)
    by (apply packet_frames_length; try assumption; lia).
  split; [|split; [exact L | apply packet_frames_all_243; try assumption; lia]].
  unfold run, session. rewrite Hc, Hi, Hn.
  unfold start_notify, bind at 1 2 3, ret.
  rewrite reset_screen_writes by (apply Hw; cbn [length]; lia).
  unfold bind at 1.
  rewrite (send_packets_ok dev (N.of_nat (length chunks)) chunks);
    try assumption; try lia.
  - fold frames. rewrite finalize_writes.
    + now rewrite <- app_assoc.
    + apply Hw. rewrite length_app, L. cbn [length app reset_frames]. lia.
    + apply Hw. rewrite length_app, L. cbn [length app reset_frames]. lia.
  - intros j Hj. split; [apply Hw; cbn [length app reset_frames]; lia | now apply Hack].
Qed.

(** X6: with a device that takes every write and acknowledges every
    packet, the session writes the two reset frames, then one frame of
    243 bytes per chunk, in order, then the finalize frame twice, and
    returns normally. *)
Theorem session_completes (dev : device) (chunks : list str) :
  is_connected dev = true ->
  indications_ok dev = true ->
  notifications_ok dev = true ->
  (forall m, (m < length chunks + 4)%nat -> write_ok dev m = true) ->
  (forall j, (j < length chunks)%nat -> notified dev (N.of_nat j) = true) ->
  forallb full_chunk chunks = true ->
  (length chunks <= 255)%nat ->
  let frames := packet_frames chunks 0 (N.of_nat (length chunks)) in
  run (session dev chunks)
  = (reset_frames ++ frames ++ finalize_frames, inl tt)
  /\ length frames = length chunks
  /\ Forall (fun f => length f = 243%nat) frames.
Proof. exact (session_run_complete dev chunks). Qed.

Lemma session_completes_witness :
  let frames := packet_frames [zero_chunk; zero_chunk] 0 (N.of_nat 2) in
  run (session prompt_device [zero_chunk; zero_chunk])
  = (reset_frames ++ frames ++ finalize_frames, inl tt)
  /\ length frames = 2%nat
  /\ Forall (fun f => length f = 243%nat) frames.
Proof.
  apply (session_completes prompt_device [zero_chunk; zero_chunk]);
    try reflexivity.
  simpl. lia.
Defined.

(** X7: if the write of packet [k] raises, the loop catches the error and
    the script exits: what was written is the two reset frames and the
    frames of the packets before [k]; the failed packet is not tried
    again, and no later packet and no finalize frame is written. *)
Theorem write_error_aborts (dev : device) (chunks : list str) (k : nat) :
  is_connected dev = true ->
  indications_ok dev = true ->
  notifications_ok dev = true ->
  (forall m, (m < 2 + k)%nat -> write_ok dev m = true) ->
  write_ok dev (2 + k) = false ->
  (forall j, (j < k)%nat -> notified dev (N.of_nat j) = true) ->
  forallb full_chunk chunks = true ->
  (length chunks <= 255)%nat ->
  (k < length chunks)%nat ->
  let frames := packet_frames (firstn k chunks) 0 (N.of_nat (length chunks)) in
  run (session dev chunks)
  = (reset_frames ++ frames, inr (SysExit (UploadError BleakError)))
  /\ length frames = k.
Proof.
  intros Hc Hi Hn Hw Hfail Hack Hfull Hlen Hk frames.
  assert (Hf : Forall (fun c => full_chunk c = true) chunks)
    by (apply Forall_forall; now apply forallb_forall).
  rewrite <- (firstn_skipn k chunks) in Hf. apply Forall_app in Hf as [Hf1 Hf2].
  assert (Lk : length (firstn k chunks) = k) by (rewrite length_firstn; lia).
  assert (L : length frames = k)
    by (unfold frames; rewrite packet_frames_length; try assumption; lia).
  split; [|exact L].
  unfold run, session. rewrite Hc, Hi, Hn.
  unfold start_notify, bind at 1 2 3, ret.
  rewrite reset_screen_writes by (apply Hw; cbn [length]; lia).
  unfold bind at 1.
  rewrite <- (firstn_skipn k chunks) at 1.
  rewrite send_packets_app. unfold bind at 1.
  rewrite (send_packets_ok dev (N.of_nat (length chunks)) (firstn k chunks));
    try assumption; try lia.
  - fold frames. rewrite Lk.
    destruct (skipn k chunks) as [|c rest] eqn:E.
    + apply (f_equal (@length _)) in E. rewrite length_skipn in E.
      cbn [length] in E. lia.
    + pose proof (Forall_inv Hf2) as Hcf. cbv beta in Hcf.
      destruct (packet_frame_full c (0 + N.of_nat k) (N.of_nat (length chunks)))
        as [frame Hframe]; try assumption; try lia.
      cbn [send_packets]. unfold bind at 1.
      rewrite (send_packet_write_error dev c _ _ frame _ Hframe).
      * reflexivity.
      * rewrite length_app, L. cbn [length app reset_frames]. exact Hfail.
  - intros j Hj. split; [apply Hw; cbn [length app reset_frames]; lia | apply Hack; lia].
Qed.

Lemma write_error_aborts_witness :
  let frames := packet_frames (firstn 1 [zero_chunk; zero_chunk]) 0 (N.of_nat 2) in
  run (session (device_failing_write 3) [zero_chunk; zero_chunk])
  = (reset_frames ++ frames, inr (SysExit (UploadError BleakError)))
  /\ length frames = 1%nat.
Proof.
  apply (write_error_aborts (device_failing_write 3) [zero_chunk; zero_chunk] 1);
    try reflexivity.
  - intros m Hm. destruct m as [|[|[|m]]]; [reflexivity.. | lia].
  - simpl. lia.
  - simpl. lia.
Defined.

(** X8: end to end.  For a file with a GIF signature and at most
    255 x 196 bytes, and a device that takes every write and
    acknowledges every packet, [main] writes the two reset frames, then
    ceil(L / 196) data frames of 243 bytes each, then the finalize frame
    twice, and returns normally. *)
Theorem main_uploads (content : list byte) (dev : device) :
  gif_signature (bytes_hex content) = true ->
  (length content <= 255 * 196)%nat ->
  is_connected dev = true ->
  indications_ok dev = true ->
  notifications_ok dev = true ->
  (forall m, write_ok dev m = true) ->
  (forall j, notified dev j = true) ->
  let count := ((length content + 195) / 196)%nat in
  let frames :=
    packet_frames (hex_chunks (bytes_hex content) 392) 0 (N.of_nat count) in
  run (main (Some content) dev)
  = (reset_frames ++ frames ++ finalize_frames, inl tt)
  /\ length frames = count
  /\ Forall (fun f => length f = 243%nat) frames.
Proof.
  intros G Hlen Hc Hi Hn Hw Hack count frames.
  assert (Hcount : (count <= 255)%nat).
  { unfold count. apply Nat.lt_succ_r.
    apply Nat.Div0.div_lt_upper_bound. lia. }
  assert (E : file_to_hex_chunks (Some content)
              = inr (hex_chunks (bytes_hex content) 392)).
  { rewrite file_to_hex_chunks_count by assumption. fold count.
    destruct (Nat.ltb_spec 255 count); [lia | reflexivity]. }
  destruct (file_to_hex_chunks_inr _ _ E) as (_ & Lc & _ & Hfull).
  fold count in Lc.
  pose proof (session_run_complete dev (hex_chunks (bytes_hex content) 392)
                Hc Hi Hn) as S.
  rewrite Lc in S. unfold main. rewrite E.
  apply S; try assumption; intros; auto.
Qed.

Lemma main_uploads_witness :
  let content := encode_ascii "GIF89a1234" ++ repeat x00 186 in
  let count := ((length content + 195) / 196)%nat in
  let frames :=
    packet_frames (hex_chunks (bytes_hex content) 392) 0 (N.of_nat count) in
  run (main (Some content) prompt_device)
  = (reset_frames ++ frames ++ finalize_frames, inl tt)
  /\ length frames = count
  /\ Forall (fun f => length f = 243%nat) frames.
Proof.
  apply (main_uploads (encode_ascii "GIF89a1234" ++ repeat x00 186)
           prompt_device); try reflexivity.
  rewrite length_app, repeat_length.
  change (length (encode_ascii "GIF89a1234")) with 10%nat. lia.
Defined.

(* ================================================================== *)
(** * Further properties of the packet encoder *)

Lemma app_inj_length {A : Type} (a a' b b' : list A) :
  length a = length a' -> a ++ b = a' ++ b' -> a = a' /\ b = b'.
Proof.
  revert a'. induction a as [|x a IH]; intros [|x' a'] L E;
    try discriminate.
  - now split.
  - injection E as -> E. injection L as L.
    destruct (IH a' L E) as [-> ->]. now split.
Qed.

Lemma header_fields (len index n : N) :
  nth_error (header_bytes len index n) 5 = Some (byte_of (index / 256))
  /\ nth_error (header_bytes len index n) 6 = Some (byte_of (index mod 256))
  /\ nth_error (header_bytes len index n) 35 = Some (byte_of n).
Proof. repeat split. Qed.

Lemma header_bytes_inj (l1 l2 i1 i2 n1 n2 : N) :
  i1 < 65536 -> i2 < 65536 -> n1 < 256 -> n2 < 256 ->
  header_bytes l1 i1 n1 = header_bytes l2 i2 n2 -> i1 = i2 /\ n1 = n2.
Proof.
  intros Hi1 Hi2 Hn1 Hn2 H.
  destruct (header_fields l1 i1 n1) as (A1 & B1 & C1).
  destruct (header_fields l2 i2 n2) as (A2 & B2 & C2).
  rewrite H in A1, B1, C1.
  rewrite A2 in A1. rewrite B2 in B1. rewrite C2 in C1.
  injection A1 as Ehi. injection B1 as Elo. injection C1 as En.
  apply (f_equal byte_val) in Ehi, Elo, En.
  rewrite !byte_val_of in Ehi, Elo, En by lia.
  split; [lia | congruence].
Qed.

(** The frame of a packet determines the chunk, the index and the count
    it was made of. *)
Lemma packet_frame_inj (p1 p2 : str) (c1 c2 : list byte) (i1 i2 n1 n2 : N) :
  fromhex p1 = Some c1 -> fromhex p2 = Some c2 ->
  length c1 = 196%nat -> length c2 = 196%nat ->
  i1 <= 65535 -> i2 <= 65535 -> n1 <= 255 -> n2 <= 255 ->
  packet_frame p1 i1 n1 = packet_frame p2 i2 n2 ->
  c1 = c2 /\ i1 = i2 /\ n1 = n2.
Proof.
  intros H1 H2 L1 L2 Hi1 Hi2 Hn1 Hn2 E.
  destruct (generate_packet_bytes p1 c1 i1 n1) as (k1 & G1 & F1);
    try lia; try assumption.
  destruct (generate_packet_bytes p2 c2 i2 n2) as (k2 & G2 & F2);
    try lia; try assumption.
  unfold packet_frame in E. rewrite G1, G2, F1, F2 in E.
  apply some_inj in E. rewrite <- !app_assoc in E.
  apply app_inj_length in E as [Eh E]; [|reflexivity].
  apply app_inj_length in E as [Ec _]; [|congruence].
  apply header_bytes_inj in Eh as [Ei En]; try lia.
  now repeat split.
Qed.

(** X9: two packets that differ in the chunk, in the index or in the
    count are different frames, for chunks of 196 bytes, indices up to
    65535 and counts up to 255: no two packets of a session are the same
    bytes. *)
Theorem packet_frames_differ (p1 p2 : str) (c1 c2 : list byte)
    (i1 i2 n1 n2 : N) :
  fromhex p1 = Some c1 -> fromhex p2 = Some c2 ->
  length c1 = 196%nat -> length c2 = 196%nat ->
  i1 <= 65535 -> i2 <= 65535 -> n1 <= 255 -> n2 <= 255 ->
  c1 <> c2 \/ i1 <> i2 \/ n1 <> n2 ->
  packet_frame p1 i1 n1 <> packet_frame p2 i2 n2.
Proof.
  intros H1 H2 L1 L2 Hi1 Hi2 Hn1 Hn2 D E.
  destruct (packet_frame_inj p1 p2 c1 c2 i1 i2 n1 n2) as (Ec & Ei & En);
    try assumption.
  destruct D as [D|[D|D]]; contradiction.
Qed.

Lemma packet_frames_differ_witness :
  packet_frame zero_chunk 0 2 <> packet_frame zero_chunk 1 2.
Proof.
  apply (packet_frames_differ zero_chunk zero_chunk
           (repeat x00 196) (repeat x00 196) 0 1 2 2);
    try reflexivity; lia.
Defined.

(** ** A count above 255 *)

Lemma hex_val_bound (c : ascii) (d : N) : hex_val c = Some d -> d < 16.
Proof.
  unfold hex_val. set (n := N_of_ascii c).
  repeat match goal with
         | |- context [(?a <=? ?b)%N] => destruct (N.leb_spec a b)
         end; cbn [andb]; intros [= <-]; lia.
Qed.

Lemma int16_bound (s : str) (v : N) :
  (length s <= 2)%nat -> int16 s = Some v -> v <= 255.
Proof.
  destruct s as [|a [|b [|c s]]]; cbn [length]; intros L; try lia;
    unfold int16, int16_from.
  - discriminate.
  - destruct (hex_val a) as [x|] eqn:A; [|discriminate].
    apply hex_val_bound in A. intros [= <-]. lia.
  - destruct (hex_val a) as [x|] eqn:A; [|discriminate].
    destruct (hex_val b) as [y|] eqn:B; [|discriminate].
    apply hex_val_bound in A, B. intros [= <-].
    change (16 * x + y <= 255). lia.
Qed.

Lemma traverse_sum_bound {A : Type} (f : A -> option N) (l : list A) :
  (forall a v, f a = Some v -> v <= 255) ->
  forall vs, traverse f l = Some vs -> sum vs <= 255 * N.of_nat (length l).
Proof.
  intros Hf. induction l as [|a l IH]; intros vs H.
  - injection H as <-. cbn. lia.
  - cbn [traverse] in H. destruct (f a) as [v|] eqn:E; [|discriminate].
    destruct (traverse f l) as [vs'|]; [|discriminate].
    injection H as <-. specialize (IH vs' eq_refl). apply Hf in E.
    change (sum (v :: vs')) with (v + sum vs'). cbn [length]. lia.
Qed.

Lemma pair_values_bound (s : str) (stop : nat) (vs : list N) :
  pair_values s stop = Some vs ->
  sum vs <= 255 * N.of_nat ((stop + 1) / 2).
Proof.
  intros H. unfold pair_values in H.
  apply traverse_sum_bound in H.
  - now rewrite range_count in H.
  - intros i v. apply int16_bound. unfold slice.
    rewrite length_firstn. lia.
Qed.

Lemma fromhex_odd (s : str) : Nat.odd (length s) = true -> fromhex s = None.
Proof.
  intros O. destruct (fromhex s) as [bs|] eqn:E; [|reflexivity].
  rewrite (fromhex_length s bs E), Nat.odd_mul in O. discriminate.
Qed.

Lemma fromhex_text (s : str) : forall bs, fromhex s = Some bs -> hex_text s.
Proof.
  induction s as [s IH] using (induction_ltof1 _ (@length _)).
  unfold ltof in IH. intros bs H.
  destruct s as [|a [|b r]]; [constructor | discriminate |].
  cbn [fromhex] in H.
  destruct (hex_val a) as [x|] eqn:A; [|discriminate].
  destruct (hex_val b) as [y|] eqn:B; [|discriminate].
  destruct (Byte.of_N _); [|discriminate].
  destruct (fromhex r) as [br|] eqn:R; [|discriminate].
  constructor; [unfold is_hex_digit; now rewrite A|].
  constructor; [unfold is_hex_digit; now rewrite B|].
  apply (IH r) with (bs := br); [simpl; lia | exact R].
Qed.

Lemma length_format_02X_byte (n : N) : n < 256 -> length (format_02X n) = 2%nat.
Proof. intros H. now rewrite format_02X_byte. Qed.

(** With a count of three hex digits the header has 91 digits. *)
Lemma length_generate_header_wide (payload : str) (index n : N) :
  length_field payload < 256 -> index < 65536 -> 256 <= n < 4096 ->
  length (generate_header payload index n) = 91%nat.
Proof.
  intros Hl Hi Hn. unfold generate_header, format_02X, zfill.
  assert (16 <= length_field payload) by (unfold length_field; lia).
  rewrite length_field_text, format_04x_word, hex_digits_3 by lia.
  reflexivity.
Qed.

(** X10: why the chunker refuses more than 255 chunks.  With a count
    from 256 to 4095 the count takes three hex digits, the packet text
    has an odd number of digits (487), [bytearray.fromhex] refuses it,
    and the round of the loop exits with the error before anything is
    written. *)
Theorem count_over_255 (payload : str) (chunk : list byte) (index n : N) :
  fromhex payload = Some chunk -> length chunk = 196%nat ->
  index <= 65535 -> 256 <= n -> n <= 4095 ->
  exists packet,
    generate_packet payload index n = Some packet
    /\ length packet = 487%nat
    /\ fromhex packet = None
    /\ forall dev tr,
         send_packet dev payload index n tr
         = (tr, inr (SysExit (UploadError ValueError))).
Proof.
  intros Hp Hlen Hi Hn1 Hn2.
  pose proof (length_field_bytes _ _ Hp) as Hf. rewrite Hlen in Hf.
  pose proof (fromhex_length _ _ Hp) as Lp. rewrite Hlen in Lp.
  assert (Lh : length (generate_header payload index n) = 91%nat)
    by (apply length_generate_header_wide; rewrite ?Hf; lia).
  assert (G : exists packet,
             generate_packet payload index n = Some packet
             /\ length packet = 487%nat).
  { unfold generate_packet, checksum_mod256, calculate_last_byte.
    set (full := generate_header payload index n ++ payload).
    assert (Lf : length full = 483%nat)
      by (unfold full; rewrite length_app, Lh, Lp; reflexivity).
    assert (Hfull : hex_text full).
    { apply Forall_app. split; [apply generate_header_text|].
      exact (fromhex_text _ _ Hp). }
    destruct (pair_values_total full Hfull (length full)) as [vs ->]; [lia|].
    rewrite checksum_text.
    set (full2 := full ++ format_02X (sum vs mod 256)).
    assert (Lf2 : length full2 = 485%nat).
    { unfold full2. rewrite length_app, Lf, length_format_02X_byte by lia.
      reflexivity. }
    assert (Hfull2 : hex_text full2)
      by (apply Forall_app; split; [assumption | apply format_02X_text]).
    destruct (pair_values_total full2 Hfull2 (length full2 - 2)) as [ws Hws];
      [lia|].
    rewrite Hws. eexists. split; [reflexivity|].
    apply pair_values_bound in Hws. rewrite Lf2 in Hws.
    change (N.of_nat ((485 - 2 + 1) / 2)) with 242 in Hws.
    rewrite length_app, Lf2, length_format_02X_byte by lia.
    reflexivity. }
  destruct G as (packet & G & L). exists packet.
  assert (F : fromhex packet = None)
    by (apply fromhex_odd; rewrite L; reflexivity).
  repeat split; try assumption.
  intros dev tr.
  cbv [send_packet try_except bind value_of write_gatt_char
       wait_for_notification sys_exit ret raise].
  now rewrite G, F.
Qed.

Lemma count_over_255_witness :
  exists packet,
    generate_packet zero_chunk 0 256 = Some packet
    /\ length packet = 487%nat
    /\ fromhex packet = None
    /\ forall dev tr,
         send_packet dev zero_chunk 0 256 tr
         = (tr, inr (SysExit (UploadError ValueError))).
Proof.
  apply (count_over_255 zero_chunk (repeat x00 196) 0 256);
    try reflexivity; lia.
Defined.

(** X11: the header of a payload of at most 196 bytes has 45 bytes; its
    length field is the number of payload bytes plus 41, its byte 35 is
    the count, and its last two bytes are 81 c4 whatever the length of
    the payload. *)
Theorem header_fields_of_payload (payload : str) (chunk : list byte)
    (index n : N) :
  fromhex payload = Some chunk -> (length chunk <= 196)%nat ->
  index <= 65535 -> n <= 255 ->
  exists header len count,
    fromhex (generate_header payload index n) = Some header
    /\ length header = 45%nat
    /\ nth_error header 4 = Some len
    /\ byte_val len = N.of_nat (length chunk) + 41
    /\ nth_error header 35 = Some count
    /\ byte_val count = n
    /\ skipn 43 header = [x81; xc4].
Proof.
  intros Hp Hlen Hi Hn.
  exists (header_bytes (N.of_nat (length chunk) + 41) index n).
  exists (byte_of (N.of_nat (length chunk) + 41)), (byte_of n).
  split; [apply fromhex_header_alone; lia || assumption|].
  repeat split; apply byte_val_of; lia.
Qed.

Lemma header_fields_of_payload_witness :
  exists header len count,
    fromhex (generate_header (lit "0a0b0c") 3 7) = Some header
    /\ length header = 45%nat
    /\ nth_error header 4 = Some len
    /\ byte_val len = N.of_nat (length [x0a; x0b; x0c]) + 41
    /\ nth_error header 35 = Some count
    /\ byte_val count = 7
    /\ skipn 43 header = [x81; xc4].
Proof.
  apply (header_fields_of_payload (lit "0a0b0c") [x0a; x0b; x0c] 3 7);
    try reflexivity; simpl; lia.
Defined.

(** X12: the two checksum functions together append the sum of the bytes
    as a 16-bit little-endian number: for a text whose bytes sum to less
    than 65536, the byte that [checksum_mod256] gives and the byte that
    [calculate_last_byte] gives for the text with that checksum appended
    are the low and the high byte of the sum. *)
Theorem trailer_is_sum16 (s : str) (bs : list byte) :
  fromhex s = Some bs -> total bs < 65536 ->
  exists c t lo hi,
    checksum_mod256 s = Some c
    /\ calculate_last_byte (s ++ c) = Some t
    /\ fromhex (s ++ c ++ t) = Some (bs ++ [lo; hi])
    /\ byte_val lo + 256 * byte_val hi = total bs.
Proof.
  intros H B.
  exists (upper (byte_hex (byte_of (total bs mod 256)))).
  exists (upper (byte_hex (byte_of (total bs / 256)))).
  exists (byte_of (total bs mod 256)), (byte_of (total bs / 256)).
  assert (Hc : fromhex (s ++ upper (byte_hex (byte_of (total bs mod 256))))
               = Some (bs ++ [byte_of (total bs mod 256)])).
  { rewrite (fromhex_app _ _ _ H).
    rewrite <- (app_nil_r (upper _)), fromhex_upper_byte_hex. reflexivity. }
  split; [rewrite (checksum_mod256_bytes _ _ H); fold (total bs);
          now rewrite format_02X_byte by lia|].
  split; [rewrite (calculate_last_byte_bytes _ _ Hc), removelast_last;
          fold (total bs); now rewrite format_02X_byte by lia|].
  split.
  - rewrite app_assoc, (fromhex_app _ _ _ Hc).
    rewrite <- (app_nil_r (upper _)), fromhex_upper_byte_hex.
    cbn [fromhex option_map]. now rewrite <- app_assoc.
  - rewrite !byte_val_of by lia. lia.
Qed.

Lemma trailer_is_sum16_witness :
  exists c t lo hi,
    checksum_mod256 (lit "ffff03") = Some c
    /\ calculate_last_byte (lit "ffff03" ++ c) = Some t
    /\ fromhex (lit "ffff03" ++ c ++ t) = Some ([xff; xff; x03] ++ [lo; hi])
    /\ byte_val lo + 256 * byte_val hi = total [xff; xff; x03].
Proof.
  apply (trailer_is_sum16 (lit "ffff03") [xff; xff; x03]);
    [reflexivity | vm_compute; reflexivity].
Defined.

(** X13: nothing reaches the device unless everything before the first
    write went well: if [main] writes at least one frame, the file could
    be opened, has a GIF signature and needs at most 255 chunks, the
    client is connected and both subscriptions succeeded. *)
Theorem main_writes_only_when_ready (file : option (list byte)) (dev : device) :
  fst (run (main file dev)) <> [] ->
  exists content,
    file = Some content
    /\ gif_signature (bytes_hex content) = true
    /\ ((length content + 195) / 196 <= 255)%nat
    /\ is_connected dev = true
    /\ indications_ok dev = true
    /\ notifications_ok dev = true.
Proof.
  unfold run, main. intros W.
  destruct file as [content|]; [|now contradiction W].
  exists content.
  destruct (gif_signature (bytes_hex content)) eqn:G.
  - rewrite file_to_hex_chunks_count in W by assumption.
    destruct (Nat.ltb_spec 255 ((length content + 195) / 196)) as [Hgt|Hle];
      [now contradiction W|].
    unfold session in W.
    destruct (is_connected dev); [|now contradiction W].
    unfold start_notify, bind at 1 2 in W.
    destruct (indications_ok dev); [|now contradiction W].
    destruct (notifications_ok dev); [|now contradiction W].
    now repeat split.
  - unfold file_to_hex_chunks in W. rewrite G in W. now contradiction W.
Qed.

Lemma main_writes_only_when_ready_witness :
  exists content,
    Some (encode_ascii "GIF89a1234") = Some content
    /\ gif_signature (bytes_hex content) = true
    /\ ((length content + 195) / 196 <= 255)%nat
    /\ is_connected silent_device = true
    /\ indications_ok silent_device = true
    /\ notifications_ok silent_device = true.
Proof.
  apply (main_writes_only_when_ready (Some (encode_ascii "GIF89a1234"))
           silent_device).
  vm_compute. discriminate.
Defined.

Lemma reset_screen_first_fails (dev : device) (tr : trace) :
  write_ok dev (length tr) = false ->
  reset_screen dev tr = (tr, inr (Raise BleakError)).
Proof.
  intros H0. unfold reset_screen, bind, write_gatt_char.
  change (value_of (fromhex reset_frame_1) tr)
    with (tr, @inl _ abort (literal_bytes reset_frame_1)).
  cbv beta iota. now rewrite H0.
Qed.

Lemma reset_screen_second_fails (dev : device) (tr : trace) :
  write_ok dev (length tr) = true ->
  write_ok dev (length tr + 1) = false ->
  reset_screen dev tr
  = (tr ++ [literal_bytes reset_frame_1], inr (Raise BleakError)).
Proof.
  intros H0 H1. unfold reset_screen, bind, write_gatt_char.
  change (value_of (fromhex reset_frame_1) tr)
    with (tr, @inl _ abort (literal_bytes reset_frame_1)).
  cbv beta iota. rewrite H0.
  change (value_of (fromhex reset_frame_2) (tr ++ [literal_bytes reset_frame_1]))
    with (tr ++ [literal_bytes reset_frame_1],
          @inl _ abort (literal_bytes reset_frame_2)).
  cbv beta iota. rewrite length_app. cbn [length]. now rewrite H1.
Qed.

Lemma finalize_first_fails (dev : device) (tr : trace) :
  write_ok dev (length tr) = false ->
  (data <- value_of (fromhex finalize_frame) ;;
   write_gatt_char dev data ;;
   data <- value_of (fromhex finalize_frame) ;;
   write_gatt_char dev data) tr
  = (tr, inr (Raise BleakError)).
Proof.
  intros H0. unfold bind, write_gatt_char.
  change (value_of (fromhex finalize_frame) tr)
    with (tr, @inl _ abort (literal_bytes finalize_frame)).
  cbv beta iota. now rewrite H0.
Qed.

Lemma finalize_second_fails (dev : device) (tr : trace) :
  write_ok dev (length tr) = true ->
  write_ok dev (length tr + 1) = false ->
  (data <- value_of (fromhex finalize_frame) ;;
   write_gatt_char dev data ;;
   data <- value_of (fromhex finalize_frame) ;;
   write_gatt_char dev data) tr
  = (tr ++ [literal_bytes finalize_frame], inr (Raise BleakError)).
Proof.
  intros H0 H1. unfold bind, write_gatt_char.
  change (value_of (fromhex finalize_frame) tr)
    with (tr, @inl _ abort (literal_bytes finalize_frame)).
  cbv beta iota. rewrite H0.
  change (value_of (fromhex finalize_frame)
            (tr ++ [literal_bytes finalize_frame]))
    with (tr ++ [literal_bytes finalize_frame],
          @inl _ abort (literal_bytes finalize_frame)).
  cbv beta iota. rewrite length_app. cbn [length]. now rewrite H1.
Qed.

(** X14: only the packet writes are guarded.  If the first write that the
    device refuses is one of the two reset frames or one of the two
    finalize frames, the [BleakError] is caught nowhere: the session ends
    with the exception itself, not with the "upload error" exit, and what
    was written is the frames before the refused one. *)
Theorem control_write_error_uncaught (dev : device) (chunks : list str)
    (m : nat) :
  is_connected dev = true ->
  indications_ok dev = true ->
  notifications_ok dev = true ->
  (forall m', (m' < m)%nat -> write_ok dev m' = true) ->
  write_ok dev m = false ->
  (forall j, (j < length chunks)%nat -> notified dev (N.of_nat j) = true) ->
  forallb full_chunk chunks = true ->
  (length chunks <= 255)%nat ->
  (m < 2 \/ length chunks + 2 <= m < length chunks + 4)%nat ->
  let frames := packet_frames chunks 0 (N.of_nat (length chunks)) in
  run (session dev chunks)
  = (firstn m (reset_frames ++ frames ++ finalize_frames),
     inr (Raise BleakError)).
Proof.
  intros Hc Hi Hn Hw Hfail Hack Hfull Hlen Hm frames.
  assert (Hf : Forall (fun c => full_chunk c = true) chunks)
    by (apply Forall_forall; now apply forallb_forall).
  assert (L : length frames = length chunks)
    by (apply packet_frames_length; try assumption; lia).
  unfold run, session. rewrite Hc, Hi, Hn.
  unfold start_notify, bind at 1 2 3, ret.
  destruct Hm as [Hm|Hm].
  - destruct m as [|[|m]]; [| |lia].
    + now rewrite reset_screen_first_fails by exact Hfail.
    + rewrite reset_screen_second_fails;
        [reflexivity | apply Hw; cbn [length]; lia | exact Hfail].
  - rewrite reset_screen_writes by (apply Hw; cbn [length]; lia).
    unfold bind at 1.
    rewrite (send_packets_ok dev (N.of_nat (length chunks)) chunks);
      try assumption; try lia.
    + fold frames.
      assert (L2 : length ([] ++ reset_frames ++ frames)
                   = (length chunks + 2)%nat)
        by (rewrite !length_app, L; cbn [length app reset_frames]; lia).
      rewrite (app_assoc reset_frames), firstn_app.
      change (reset_frames ++ frames) with ([] ++ reset_frames ++ frames).
      rewrite firstn_all2 by lia. rewrite L2.
      destruct (Nat.eq_dec m (length chunks + 2)) as [->|Hne].
      * rewrite Nat.sub_diag. cbn [firstn]. rewrite app_nil_r.
        apply finalize_first_fails. now rewrite L2.
      * replace (m - (length chunks + 2))%nat with 1%nat by lia.
        assert (E : m = (length chunks + 2 + 1)%nat) by lia.
        apply finalize_second_fails.
        -- apply Hw. lia.
        -- now rewrite L2, <- E.
    + intros j Hj. split;
        [apply Hw; cbn [length app reset_frames]; lia | now apply Hack].
Qed.

Lemma control_write_error_uncaught_witness :
  let frames := packet_frames [zero_chunk] 0 (N.of_nat 1) in
  run (session (device_failing_write 3) [zero_chunk])
  = (firstn 3 (reset_frames ++ frames ++ finalize_frames),
     inr (Raise BleakError)).
Proof.
  apply (control_write_error_uncaught (device_failing_write 3) [zero_chunk] 3);
    try reflexivity.
  - intros m Hm. destruct m as [|[|[|m]]]; [reflexivity.. | lia].
  - simpl. lia.
  - simpl. lia.
Defined.
